(** * WorkOS AuthKit component: event ingestion and reconciliation

    A shallow embedding of [src/component/lib.ts] of the Convex component
    [@convex-dev/workos-authkit], and the properties of its event applier
    ([processEvent]), its puller ([updateEvents]) and its reconciler
    ([backfillEvents]).

    The repository carries two revisions of [lib.ts]:
    - the file [src/component/lib.ts] itself, which has the reconciler
      ([getLastCheckpointedEvent], [getMissingEventIds],
      [updateLastCheckpointedEventId], [backfillEvents]); it is embedded in
      [Module Lib];
    - the revision that follows the developing guide in [CHANGELOG.md], which
      has the arguments [initialRangeHours] and [createUserOnUpdate] and no
      reconciler; it is embedded in [Module LibRange].
    The two agree on everything else, and [Lib.processEvent] is
    [LibRange.processEvent] with [createUserOnUpdate] left out
    (lemma [processEvent_revisions]). *)

From stdpp Require Import base option list gmap strings pretty.
From Stdlib Require Import String ZArith Lia.

Open Scope string_scope.
Open Scope list_scope.
Open Scope nat_scope.

(** ** JavaScript values the code inspects *)

(** A JS object with string values: a missing key reads as [undefined]. *)
Abbreviation Data := (gmap string string).

(** [a >= b] of JavaScript, on values that are strings or [undefined]: two
    strings are compared by code units ([String.compare], for strings of
    code units below 256), and a comparison with [undefined] is false. *)
Definition js_ge (a b : option string) : bool :=
  match a, b with
  | Some x, Some y => negb (String.ltb x y)
  | _, _ => false
  end.

(** Truthiness of a [string | null | undefined]: the empty string is falsy. *)
Definition truthy (o : option string) : bool :=
  match o with
  | Some s => negb (String.eqb s "")
  | None => false
  end.

(** [omit(obj, keys)] of convex-helpers. *)
Definition omit (obj : Data) (keys : list string) : Data :=
  foldr (λ k o, delete k o) obj keys.

(** ** The event of the remote feed, and the feed *)

Record Event := mkEvent {
  ev_id : string;
  ev_createdAt : string;
  ev_event : string;
  ev_data : Data;
}.

(** The argument of [workos.events.listEvents] and its answer. *)
Record Request := mkRequest {
  req_events : list string;
  req_after : option string;
  req_rangeStart : option string;
}.

Record Page := mkPage {
  data : list Event;
  listMetadata_after : option string;
}.

(** ** Documents and tables *)

(** A document of a Convex table: the system fields and the row. *)
Record Doc (A : Type) := mkDoc {
  _id : nat;
  _creationTime : nat;
  row : A;
}.
Arguments mkDoc {A} _ _ _.
Arguments _id {A} _.
Arguments _creationTime {A} _.
Arguments row {A} _.

(** Rows of the table [events]. *)
Record EventRow := mkEventRow {
  eventId : string;
  event : string;
  updatedAt : option string;
}.

(** Rows of the table [syncState]. *)
Record SyncRow := mkSyncRow {
  key : string;
  value : string;
}.

#[global] Instance EventRow_eq_dec : EqDecision EventRow.
Proof. solve_decision. Defined.
#[global] Instance SyncRow_eq_dec : EqDecision SyncRow.
Proof. solve_decision. Defined.
#[global] Instance Doc_eq_dec {A} `{EqDecision A} : EqDecision (Doc A).
Proof. solve_decision. Defined.

(** ** Console *)

Inductive Level := LOG | WARN | ERROR.

Inductive LogArg :=
  | LStr (s : string)
  | LVal (o : option string)
  | LEvent (e : Event)
  | LTypes (l : list string).

Record LogLine := mkLogLine { level : Level; line : list LogArg }.

Inductive LogLevel := DEBUG.

#[global] Instance Level_eq_dec : EqDecision Level.
Proof. solve_decision. Defined.
#[global] Instance LogLevel_eq_dec : EqDecision LogLevel.
Proof. solve_decision. Defined.

(** The record of one invocation of a caller-supplied handle: the handle, the
    arguments [{event, data}] it got, and (for the statements only) the id
    of the event that was being processed. *)
Record HandlerCall := mkHandlerCall {
  hc_eventId : string;
  hc_handle : string;
  hc_event : string;
  hc_data : Data;
}.

(** ** The host

    What the component gets from outside [lib.ts]: the caller's application
    (whose mutations the handles name), the validator of the table [users]
    declared in [schema.ts], the remote feed behind the WorkOS client, the
    wall clock, and the Workpool component. *)
Class Host := {
  (** the state of the caller's application, and [ctx.runMutation] of one of
      its function handles on [{event, data}]: [None] when it throws *)
  App : Type;
  runHandle : string → string → Data → App → option App;
  (** [schema.tables.users.validator] *)
  usersValidator : Data → bool;
  (** [new WorkOS(apiKey).events.listEvents] *)
  listEvents : string → Request → Page;
  (** [Date.now()], in milliseconds, and [new Date(ms).toISOString()] *)
  Date_now : Z;
  toISOString : Z → string;
  (** the state of the Workpool component, [cancelAll] and [enqueueAction]
      of a function reference with its arguments *)
  Pool : Type;
  cancelAll : Pool → Pool;
  enqueueAction : ∀ Args : Type, string → Args → Pool → Pool;
}.

Section Model.
Context `{Host}.

(** The database of the component and what a transaction commits with it.
    A table is the list of its documents in the order of their creation;
    [clock] stamps the next document ([_id] and [_creationTime]). *)
Record Store := mkStore {
  events : list (Doc EventRow);
  users : list (Doc Data);
  syncState : list (Doc SyncRow);
  clock : nat;
  pool : Pool;
  app : App;
  calls : list HandlerCall;
}.

(** The store with what is not transactional: the console and the requests
    sent to the remote feed. *)
Record World := mkWorld {
  store : Store;
  console : list LogLine;
  requests : list Request;
}.

(** A function either returns, throws, or is cut off by its fuel. *)
Inductive Res (A : Type) :=
  | Ok (a : A) (w : World)
  | Throw (w : World)
  | Timeout (w : World).
#[global] Arguments Ok {A} _ _.
#[global] Arguments Throw {A} _.
#[global] Arguments Timeout {A} _.

Definition M (A : Type) : Type := World → Res A.

#[global] Instance M_ret : MRet M := λ A a w, Ok a w.
#[global] Instance M_bind : MBind M := λ A B f m w,
  match m w with
  | Ok a w' => f a w'
  | Throw w' => Throw w'
  | Timeout w' => Timeout w'
  end.

Definition throw {A} : M A := λ w, Throw w.
Definition timeout {A} : M A := λ w, Timeout w.
Definition gets {A} (f : Store → A) : M A := λ w, Ok (f (store w)) w.
Definition modify (f : Store → Store) : M unit :=
  λ w, Ok tt (mkWorld (f (store w)) (console w) (requests w)).
Definition when (b : bool) (m : M unit) : M unit := if b then m else mret tt.

Definition console_at (l : Level) (args : list LogArg) : M unit :=
  λ w, Ok tt (mkWorld (store w) (console w ++ [mkLogLine l args]) (requests w)).
Definition console_log := console_at LOG.
Definition console_warn := console_at WARN.
Definition console_error := console_at ERROR.

(** A mutation is a transaction: when it throws, the store is the one it
    started from. *)
Definition atomically {A} (m : M A) : M A := λ w,
  match m w with
  | Throw w' => Throw (mkWorld (store w) (console w') (requests w'))
  | r => r
  end.

Definition mutation {Args A} (handler : Args → M A) : Args → M A :=
  λ args, atomically (handler args).
Definition internalMutation {Args A} (handler : Args → M A) : Args → M A :=
  mutation handler.
Definition query {Args A} (handler : Args → M A) : Args → M A := handler.
Definition internalQuery {Args A} (handler : Args → M A) : Args → M A := handler.
Definition internalAction {Args A} (handler : Args → M A) : Args → M A := handler.

(** [for (const x of xs) { await body(x) }] *)
Fixpoint for_of {A} (xs : list A) (body : A → M unit) : M unit :=
  match xs with
  | [] => mret tt
  | x :: xs => body x;; for_of xs body
  end.

(** *** [ctx.db] *)

(** [.unique()]: the one document of the query, [null] when there is none;
    throws when there are several. *)
Definition unique {A} (l : list A) : M (option A) :=
  match l with
  | [] => mret None
  | [d] => mret (Some d)
  | _ => throw
  end.

(** [.first()] after [.order("desc")]: the newest document. *)
Definition first_desc {A} (l : list A) : option A := last l.

Definition stamp {A} (s : Store) (r : A) : Doc A := mkDoc (clock s) (clock s) r.

Definition set_events (f : list (Doc EventRow) → list (Doc EventRow)) (s : Store) : Store :=
  mkStore (f (events s)) (users s) (syncState s) (clock s) (pool s) (app s) (calls s).
Definition set_users (f : list (Doc Data) → list (Doc Data)) (s : Store) : Store :=
  mkStore (events s) (f (users s)) (syncState s) (clock s) (pool s) (app s) (calls s).
Definition set_syncState (f : list (Doc SyncRow) → list (Doc SyncRow)) (s : Store) : Store :=
  mkStore (events s) (users s) (f (syncState s)) (clock s) (pool s) (app s) (calls s).
Definition set_pool (f : Pool → Pool) (s : Store) : Store :=
  mkStore (events s) (users s) (syncState s) (clock s) (f (pool s)) (app s) (calls s).
Definition tick (s : Store) : Store :=
  mkStore (events s) (users s) (syncState s) (S (clock s)) (pool s) (app s) (calls s).

(** [ctx.db.insert(table, row)] *)
Definition db_insert_events (r : EventRow) : M unit :=
  modify (λ s, tick (set_events (λ t, t ++ [stamp s r]) s)).
Definition db_insert_users (r : Data) : M unit :=
  if usersValidator r
  then modify (λ s, tick (set_users (λ t, t ++ [stamp s r]) s))
  else throw.
Definition db_insert_syncState (r : SyncRow) : M unit :=
  modify (λ s, tick (set_syncState (λ t, t ++ [stamp s r]) s)).

(** The document [i] with the fields of [value] merged into its row. *)
Definition patch_doc {A} (merge : A → A) (i : nat) (d : Doc A) : Doc A :=
  if decide (_id d = i) then mkDoc (_id d) (_creationTime d) (merge (row d)) else d.

(** [ctx.db.patch(id, value)]: a shallow merge, [value] first; throws when
    the document is gone or the merged row is not of the table's type. *)
Definition db_patch_users (i : nat) (value : Data) : M unit :=
  t ← gets users;
  match list_find (λ d, _id d = i) t with
  | Some (_, d) =>
      if usersValidator (value ∪ row d)
      then modify (set_users (fmap (patch_doc (λ r, value ∪ r) i)))
      else throw
  | None => throw
  end.
Definition db_patch_syncState_value (i : nat) (v : string) : M unit :=
  t ← gets syncState;
  match list_find (λ d, _id d = i) t with
  | Some _ =>
      modify (set_syncState (fmap (patch_doc (λ r, mkSyncRow (key r) v) i)))
  | None => throw
  end.

(** [ctx.db.delete(id)] *)
Definition db_delete_users (i : nat) : M unit :=
  t ← gets users;
  match list_find (λ d, _id d = i) t with
  | Some _ => modify (set_users (filter (λ d, _id d ≠ i)))
  | None => throw
  end.

(** [ctx.runMutation(handle, {event, data})] of a caller's handle, from
    inside a mutation. *)
Definition runHandleMutation (eid handle ev : string) (d : Data) : M unit := λ w,
  let s := store w in
  match runHandle handle ev d (app s) with
  | Some a =>
      Ok tt (mkWorld
        (mkStore (events s) (users s) (syncState s) (clock s) (pool s) a
                 (calls s ++ [mkHandlerCall eid handle ev d]))
        (console w) (requests w))
  | None => Throw w
  end.

(** [workos.events.listEvents(request)] *)
Definition workos_listEvents (apiKey : string) (r : Request) : M Page :=
  λ w, Ok (listEvents apiKey r) (mkWorld (store w) (console w) (requests w ++ [r])).

End Model.

(** ** [src/component/lib.ts] *)

Module Lib.
Section Lib.
Context `{Host}.

Record enqueueWebhookEvent_args := {
  ew_apiKey : string;
  ew_eventId : string;
  ew_event : string;
  ew_updatedAt : option string;
  ew_onEventHandle : option string;
  ew_eventTypes : option (list string);
  ew_logLevel : option LogLevel;
}.

Record updateEvents_args := {
  ue_apiKey : string;
  ue_onEventHandle : option string;
  ue_eventTypes : option (list string);
  ue_logLevel : option LogLevel;
}.

Record processEvent_args := {
  pe_event : Event;
  pe_logLevel : option LogLevel;
  pe_onEventHandle : option string;
}.

Definition enqueueWebhookEvent := mutation (λ args : enqueueWebhookEvent_args,
  modify (set_pool cancelAll);;
  modify (set_pool (enqueueAction _ "lib:updateEvents" {|
    ue_apiKey := ew_apiKey args;
    ue_onEventHandle := ew_onEventHandle args;
    ue_eventTypes := ew_eventTypes args;
    ue_logLevel := ew_logLevel args;
  |}))).

Definition getCursor := internalQuery (λ _ : unit,
  t ← gets events;
  let lastProcessedEvent := first_desc t in
  mret (eventId ∘ row <$> lastProcessedEvent)).

Definition processEvent := internalMutation (λ args : processEvent_args,
  when (bool_decide (pe_logLevel args = Some DEBUG))
    (console_log [LStr "processing event"; LEvent (pe_event args)]);;
  t ← gets events;
  dbEvent ← unique (filter (λ d, eventId (row d) = ev_id (pe_event args)) t);
  match dbEvent with
  | Some _ =>
      console_log [LStr "event already processed"; LStr (ev_id (pe_event args))]
  | None =>
      db_insert_events {|
        eventId := ev_id (pe_event args);
        event := ev_event (pe_event args);
        updatedAt := ev_data (pe_event args) !! "updatedAt";
      |};;
      let event := pe_event args in
      (if decide (ev_event event = "user.created") then
         let data := omit (ev_data event) ["object"] in
         t ← gets users;
         existingUser ← unique (filter (λ d, row d !! "id" = data !! "id") t);
         match existingUser with
         | Some _ => console_warn [LStr "user already exists"; LVal (data !! "id")]
         | None => db_insert_users data
         end
       else if decide (ev_event event = "user.updated") then
         let data := omit (ev_data event) ["object"] in
         t ← gets users;
         user ← unique (filter (λ d, row d !! "id" = data !! "id") t);
         match user with
         | None => console_error [LStr "user not found"; LVal (data !! "id")]
         | Some user =>
             if js_ge (row user !! "updatedAt") (data !! "updatedAt")
             then console_warn [LStr ("user already updated for event "
                                      +:+ ev_id event +:+ ", skipping")]
             else db_patch_users (_id user) data
         end
       else if decide (ev_event event = "user.deleted") then
         let data := omit (ev_data event) ["object"] in
         t ← gets users;
         user ← unique (filter (λ d, row d !! "id" = data !! "id") t);
         match user with
         | None => console_warn [LStr "user not found"; LVal (data !! "id")]
         | Some user => db_delete_users (_id user)
         end
       else mret tt);;
      match pe_onEventHandle args with
      | Some handle =>
          when (truthy (Some handle))
            (runHandleMutation (ev_id event) handle (ev_event event) (ev_data event))
      | None => mret tt
      end
  end).

Definition eventTypes_of (extra : option (list string)) : list string :=
  ["user.created"; "user.updated"; "user.deleted"] ++ default [] extra.

(** The [do ... while (nextCursor)] of [updateEvents]; [fuel] bounds the
    number of pages. *)
Fixpoint updateEvents_pages (fuel : nat) (args : updateEvents_args)
    (eventTypes : list string) (nextCursor : option string) : M unit :=
  match fuel with
  | 0 => timeout
  | S fuel =>
      page ← workos_listEvents (ue_apiKey args) {|
        req_events := eventTypes;
        req_after := nextCursor;
        req_rangeStart := None;
      |};
      for_of (data page) (λ event, processEvent {|
        pe_event := event;
        pe_logLevel := ue_logLevel args;
        pe_onEventHandle := ue_onEventHandle args;
      |});;
      let nextCursor := listMetadata_after page in
      if truthy nextCursor
      then updateEvents_pages fuel args eventTypes nextCursor
      else mret tt
  end.

Definition updateEvents (fuel : nat) := internalAction (λ args : updateEvents_args,
  cursor ← getCursor tt;
  let nextCursor := cursor in
  let eventTypes := eventTypes_of (ue_eventTypes args) in
  updateEvents_pages fuel args eventTypes nextCursor).

Definition getAuthUser := query (λ id : string,
  t ← gets users;
  user ← unique (filter (λ d, row d !! "id" = Some id) t);
  mret (row <$> user)).

Record checkpointed := {
  cp_eventId : string;
  cp_creationTime : nat;
}.

Definition getLastCheckpointedEvent := internalQuery (λ _ : unit,
  t ← gets syncState;
  state ← unique (filter (λ d, key (row d) = "lastCheckpointedEventId") t);
  match state with
  | None => mret None
  | Some state =>
      t ← gets events;
      event ← unique (filter (λ d, eventId (row d) = value (row state)) t);
      match event with
      | None => mret None
      | Some event => mret (Some {|
          cp_eventId := eventId (row event);
          cp_creationTime := _creationTime event;
        |})
      end
  end).

Record getMissingEventIds_args := {
  gm_eventIds : list string;
  gm_after : option nat;
}.

Definition getMissingEventIds := internalQuery (λ args : getMissingEventIds_args,
  t ← gets events;
  let events := filter (λ d, default 0 (gm_after args) < _creationTime d) t in
  let existingEventIds : gset string := list_to_set (eventId ∘ row <$> events) in
  mret (filter (λ id, id ∉ existingEventIds) (gm_eventIds args))).

Definition updateLastCheckpointedEventId := internalMutation (λ eventId : string,
  t ← gets syncState;
  existing ← unique (filter (λ d, key (row d) = "lastCheckpointedEventId") t);
  match existing with
  | Some existing => db_patch_syncState_value (_id existing) eventId
  | None => db_insert_syncState {| key := "lastCheckpointedEventId"; value := eventId |}
  end).

Record backfillEvents_args := {
  bf_apiKey : string;
  bf_onEventHandle : option string;
  bf_eventTypes : option (list string);
  bf_logLevel : option LogLevel;
}.

Record backfillEvents_result := {
  processed : nat;
  skipped : nat;
  lastEventId : option string;
}.

(** The [for (const event of data)] of [backfillEvents], on the counters
    and [lastEventId]. *)
Fixpoint backfill_events (args : backfillEvents_args) (missingEventIds : gset string)
    (data : list Event) (r : backfillEvents_result) : M backfillEvents_result :=
  match data with
  | [] => mret r
  | event :: data =>
      if negb (bool_decide (ev_id event ∈ missingEventIds))
      then backfill_events args missingEventIds data {|
             processed := processed r;
             skipped := S (skipped r);
             lastEventId := Some (ev_id event);
           |}
      else
        processEvent {|
          pe_event := event;
          pe_logLevel := bf_logLevel args;
          pe_onEventHandle := bf_onEventHandle args;
        |};;
        backfill_events args missingEventIds data {|
          processed := S (processed r);
          skipped := skipped r;
          lastEventId := Some (ev_id event);
        |}
  end.

(** The [while (true)] of [backfillEvents]; [fuel] bounds the number of
    pages. *)
Fixpoint backfill_pages (fuel : nat) (args : backfillEvents_args)
    (eventTypes : list string) (lastVerifiedCreationTime : nat)
    (nextCursor : option string) (r : backfillEvents_result) : M backfillEvents_result :=
  match fuel with
  | 0 => timeout
  | S fuel =>
      page ← workos_listEvents (bf_apiKey args) {|
        req_events := eventTypes;
        req_after := nextCursor;
        req_rangeStart := None;
      |};
      if bool_decide (List.length (data page) = 0) then mret r
      else
        let eventIds := ev_id <$> data page in
        missingEventIdsArray ← getMissingEventIds {|
          gm_eventIds := eventIds;
          gm_after := Some lastVerifiedCreationTime;
        |};
        let missingEventIds : gset string := list_to_set missingEventIdsArray in
        when (bool_decide (bf_logLevel args = Some DEBUG))
          (console_log [LStr ("Batch: " +:+ pretty (List.length (data page)) +:+ " events, "
                              +:+ pretty (size missingEventIds) +:+ " missing")]);;
        r ← backfill_events args missingEventIds (data page) r;
        if negb (truthy (listMetadata_after page)) then mret r
        else backfill_pages fuel args eventTypes lastVerifiedCreationTime
               (listMetadata_after page) r
  end.

Definition backfillEvents (fuel : nat) := internalAction (λ args : backfillEvents_args,
  lastCheckpointedEvent ← getLastCheckpointedEvent tt;
  let lastVerifiedEventId := cp_eventId <$> lastCheckpointedEvent in
  let lastVerifiedCreationTime := default 0 (cp_creationTime <$> lastCheckpointedEvent) in
  let eventTypes := eventTypes_of (bf_eventTypes args) in
  when (bool_decide (bf_logLevel args = Some DEBUG))
    (console_log [LStr ("Starting backfill, lastVerifiedEventId: "
                        +:+ default "none (full scan)" lastVerifiedEventId)];;
     console_log [LStr "Event types:"; LTypes eventTypes]);;
  let nextCursor := lastVerifiedEventId in
  r ← backfill_pages fuel args eventTypes lastVerifiedCreationTime nextCursor
        {| processed := 0; skipped := 0; lastEventId := None |};
  match lastEventId r with
  | Some l => when (truthy (Some l)) (updateLastCheckpointedEventId l)
  | None => mret tt
  end;;
  when (bool_decide (bf_logLevel args = Some DEBUG))
    (console_log [LStr ("Backfill complete. Processed: " +:+ pretty (processed r)
                        +:+ ", Skipped: " +:+ pretty (skipped r)
                        +:+ ", Last event: " +:+ default "null" (lastEventId r))]);;
  mret r).

End Lib.
End Lib.

(** ** The revision of [lib.ts] with [initialRangeHours] and
       [createUserOnUpdate] (the last file carried in [CHANGELOG.md]) *)

Module LibRange.
Section LibRange.
Context `{Host}.

Record enqueueWebhookEvent_args := {
  ew_apiKey : string;
  ew_eventId : string;
  ew_event : string;
  ew_updatedAt : option string;
  ew_onEventHandle : option string;
  ew_eventTypes : option (list string);
  ew_logLevel : option LogLevel;
  ew_initialRangeHours : option Z;
  ew_createUserOnUpdate : option bool;
}.

Record updateEvents_args := {
  ue_apiKey : string;
  ue_onEventHandle : option string;
  ue_eventTypes : option (list string);
  ue_logLevel : option LogLevel;
  ue_initialRangeHours : option Z;
  ue_createUserOnUpdate : option bool;
}.

Record processEvent_args := {
  pe_event : Event;
  pe_logLevel : option LogLevel;
  pe_onEventHandle : option string;
  pe_createUserOnUpdate : option bool;
}.

Definition enqueueWebhookEvent := mutation (λ args : enqueueWebhookEvent_args,
  modify (set_pool cancelAll);;
  modify (set_pool (enqueueAction _ "lib:updateEvents" {|
    ue_apiKey := ew_apiKey args;
    ue_onEventHandle := ew_onEventHandle args;
    ue_eventTypes := ew_eventTypes args;
    ue_logLevel := ew_logLevel args;
    ue_initialRangeHours := ew_initialRangeHours args;
    ue_createUserOnUpdate := ew_createUserOnUpdate args;
  |}))).

Definition getCursor := internalQuery (λ _ : unit,
  t ← gets events;
  let lastProcessedEvent := first_desc t in
  mret (eventId ∘ row <$> lastProcessedEvent)).

Definition processEvent := internalMutation (λ args : processEvent_args,
  when (bool_decide (pe_logLevel args = Some DEBUG))
    (console_log [LStr "processing event"; LEvent (pe_event args)]);;
  t ← gets events;
  dbEvent ← unique (filter (λ d, eventId (row d) = ev_id (pe_event args)) t);
  match dbEvent with
  | Some _ =>
      console_log [LStr "event already processed"; LStr (ev_id (pe_event args))]
  | None =>
      db_insert_events {|
        eventId := ev_id (pe_event args);
        event := ev_event (pe_event args);
        updatedAt := ev_data (pe_event args) !! "updatedAt";
      |};;
      let event := pe_event args in
      (if decide (ev_event event = "user.created") then
         let data := omit (ev_data event) ["object"] in
         t ← gets users;
         existingUser ← unique (filter (λ d, row d !! "id" = data !! "id") t);
         match existingUser with
         | Some _ => console_warn [LStr "user already exists"; LVal (data !! "id")]
         | None => db_insert_users data
         end
       else if decide (ev_event event = "user.updated") then
         let data := omit (ev_data event) ["object"] in
         t ← gets users;
         user ← unique (filter (λ d, row d !! "id" = data !! "id") t);
         match user with
         | None =>
             if default false (pe_createUserOnUpdate args)
             then console_warn [LStr "user not found for update, creating:";
                                LVal (data !! "id")];;
                  db_insert_users data
             else console_error [LStr "user not found"; LVal (data !! "id")]
         | Some user =>
             if js_ge (row user !! "updatedAt") (data !! "updatedAt")
             then console_warn [LStr ("user already updated for event "
                                      +:+ ev_id event +:+ ", skipping")]
             else db_patch_users (_id user) data
         end
       else if decide (ev_event event = "user.deleted") then
         let data := omit (ev_data event) ["object"] in
         t ← gets users;
         user ← unique (filter (λ d, row d !! "id" = data !! "id") t);
         match user with
         | None => console_warn [LStr "user not found"; LVal (data !! "id")]
         | Some user => db_delete_users (_id user)
         end
       else mret tt);;
      match pe_onEventHandle args with
      | Some handle =>
          when (truthy (Some handle))
            (runHandleMutation (ev_id event) handle (ev_event event) (ev_data event))
      | None => mret tt
      end
  end).

Definition eventTypes_of (extra : option (list string)) : list string :=
  ["user.created"; "user.updated"; "user.deleted"] ++ default [] extra.

(** The [do ... while (nextCursor)] of [updateEvents]; [fuel] bounds the
    number of pages. *)
Fixpoint updateEvents_pages (fuel : nat) (args : updateEvents_args)
    (eventTypes : list string) (nextCursor rangeStart : option string) : M unit :=
  match fuel with
  | 0 => timeout
  | S fuel =>
      page ← workos_listEvents (ue_apiKey args) {|
        req_events := eventTypes;
        req_after := nextCursor;
        req_rangeStart := rangeStart;
      |};
      for_of (data page) (λ event, processEvent {|
        pe_event := event;
        pe_logLevel := ue_logLevel args;
        pe_onEventHandle := ue_onEventHandle args;
        pe_createUserOnUpdate := ue_createUserOnUpdate args;
      |});;
      let nextCursor := listMetadata_after page in
      let rangeStart := None in
      if truthy nextCursor
      then updateEvents_pages fuel args eventTypes nextCursor rangeStart
      else mret tt
  end.

(** Numbers are integers here: [initialRangeHours] a whole number of hours,
    times in milliseconds. *)
Definition updateEvents (fuel : nat) := internalAction (λ args : updateEvents_args,
  cursor ← getCursor tt;
  let nextCursor := cursor in
  let eventTypes := eventTypes_of (ue_eventTypes args) in
  let rangeHours := default 168%Z (ue_initialRangeHours args) in
  let rangeStart :=
    if truthy nextCursor then None
    else Some (toISOString (Date_now - 1000 * 60 * 60 * rangeHours)%Z) in
  updateEvents_pages fuel args eventTypes nextCursor rangeStart).

Definition getAuthUser := query (λ id : string,
  t ← gets users;
  user ← unique (filter (λ d, row d !! "id" = Some id) t);
  mret (row <$> user)).

End LibRange.
End LibRange.

(** ** Observations and well-formed stores *)

Section Observations.
Context `{Host}.

(** The world a call leaves behind, whatever its outcome. *)
Definition world_of {A} (r : Res A) : World :=
  match r with
  | Ok _ w => w
  | Throw w => w
  | Timeout w => w
  end.

(** Whether a call has returned. *)
Definition returned {A} (r : Res A) : bool :=
  match r with Ok _ _ => true | _ => false end.

(** A call that leaves the record of the requests as it was, and is not cut
    off. *)
Definition keeps_requests {A} (w : World) (r : Res A) : Prop :=
  match r with
  | Ok _ w' => requests w' = requests w
  | Throw w' => requests w' = requests w
  | Timeout _ => False
  end.

(** The value a call has returned, [d] when it has not. *)
Definition result {A} (d : A) (r : Res A) : A :=
  match r with Ok a _ => a | _ => d end.

(** The data model of the three tables: event ids, user ids and state keys
    are unique, document ids are unique, and every stamp in use is older than
    the clock. *)
Record wf (s : Store) : Prop := mkWf {
  wf_eventId : NoDup (eventId ∘ row <$> events s);
  wf_user_id : NoDup ((λ d : Doc Data, row d !! "id") <$> users s);
  wf_users_id : NoDup (_id <$> users s);
  wf_syncState_key : NoDup (key ∘ row <$> syncState s);
  wf_syncState_id : NoDup (_id <$> syncState s);
  wf_events_clock : Forall (λ d, _creationTime d < clock s) (events s);
  wf_users_clock : Forall (λ d, _id d < clock s) (users s);
  wf_syncState_clock : Forall (λ d, _id d < clock s) (syncState s);
}.

(** The event id the Checkpoint holds. *)
Definition checkpoint (s : Store) : option string :=
  value ∘ row <$> head (filter (λ d, key (row d) = "lastCheckpointedEventId") (syncState s)).


End Observations.

(** ** An example host *)

(** The validator of the table [users], as the generated component API shows
    it in the return type of [getAuthUser], on string-valued fields. *)
Definition usersSchema (d : Data) : bool :=
  forallb (λ k, bool_decide (is_Some (d !! k)))
    ["createdAt"; "email"; "emailVerified"; "id"; "metadata"; "updatedAt"]
  && bool_decide (dom d ⊆ list_to_set
       ["createdAt"; "email"; "emailVerified"; "externalId"; "firstName"; "id";
        "lastName"; "lastSignInAt"; "locale"; "metadata"; "profilePictureUrl";
        "updatedAt"]).

Fixpoint after_cursor (c : string) (l : list Event) : list Event :=
  match l with
  | [] => []
  | e :: l => if String.eqb (ev_id e) c then l else after_cursor c l
  end.

(** A remote feed over a fixed list of events in creation order: the events
    after the cursor, of the requested types and not older than the range
    start, [pageSize] at a time; the continuation token is the id of the last
    event of a page that is not the last page. *)
Definition listFeed (feed : list Event) (pageSize : nat) (r : Request) : Page :=
  let rest := match req_after r with
              | Some c => after_cursor c feed
              | None => feed
              end in
  let ranged := match req_rangeStart r with
                | Some s => filter (λ e, String.ltb (ev_createdAt e) s = false) rest
                | None => rest
                end in
  let visible := filter (λ e, ev_event e ∈ req_events r) ranged in
  let page := take pageSize visible in
  mkPage page (if bool_decide (List.length page < List.length visible)
               then ev_id <$> last page else None).

Definition exampleHost (feed : list Event) (pageSize : nat) : Host := {|
  App := unit;
  runHandle := λ _ _ _ a, Some a;
  usersValidator := usersSchema;
  listEvents := λ _, listFeed feed pageSize;
  Date_now := 1700000000000%Z;
  toISOString := pretty;
  Pool := list string;
  cancelAll := λ _, [];
  enqueueAction := λ _ name _ p, p ++ [name];
|}.

Definition emptyStore `{Host} (p : Pool) (a : App) : Store :=
  mkStore [] [] [] 1 p a [].

Definition emptyWorld (feed : list Event) (pageSize : nat) : @World (exampleHost feed pageSize) :=
  @mkWorld (exampleHost feed pageSize) (@emptyStore (exampleHost feed pageSize) [] tt) [] [].

Definition userData (id updatedAt : string) : Data :=
  {[ "object" := "user"; "id" := id; "updatedAt" := updatedAt;
     "createdAt" := "2024-01-01T00:00:00.000Z"; "email" := "a@example.com";
     "emailVerified" := "true"; "metadata" := "{}" ]}.

(** ** Steps of the applier, as relations on stores

    What one call of [processEvent] that returns does to the store, read off
    the code branch by branch; lemma [processEvent_step] shows that the code
    takes these steps and no others. *)

Section Steps.
Context `{Host}.

Definition event_row (e : Event) : EventRow :=
  mkEventRow (ev_id e) (ev_event e) (ev_data e !! "updatedAt").

Definition add_event (e : Event) (s : Store) : Store :=
  tick (set_events (λ t, t ++ [stamp s (event_row e)]) s).

Definition add_user (d : Data) (s : Store) : Store :=
  tick (set_users (λ t, t ++ [stamp s d]) s).

Definition patch_user (i : nat) (d : Data) (s : Store) : Store :=
  set_users (fmap (patch_doc (λ r, d ∪ r) i)) s.

Definition delete_user (i : nat) (s : Store) : Store :=
  set_users (filter (λ x, _id x ≠ i)) s.

Definition record_call (c : HandlerCall) (a : App) (s : Store) : Store :=
  mkStore (events s) (users s) (syncState s) (clock s) (pool s) a (calls s ++ [c]).

(** The documents of [events] with a given event id, and of [users] with the
    [id] of a payload. *)
Definition events_of (i : string) (s : Store) : list (Doc EventRow) :=
  filter (λ d, eventId (row d) = i) (events s).

Definition users_of (d : Data) (s : Store) : list (Doc Data) :=
  filter (λ u, row u !! "id" = d !! "id") (users s).

Definition payload (e : Event) : Data := omit (ev_data e) ["object"].

Inductive mirror_rel (create : bool) (e : Event) (s : Store) : Store → Prop :=
  | mirror_created :
      ev_event e = "user.created" → users_of (payload e) s = [] →
      mirror_rel create e s (add_user (payload e) s)
  | mirror_exists u :
      ev_event e = "user.created" → users_of (payload e) s = [u] →
      mirror_rel create e s s
  | mirror_created_on_update :
      ev_event e = "user.updated" → users_of (payload e) s = [] → create = true →
      mirror_rel create e s (add_user (payload e) s)
  | mirror_missing :
      ev_event e = "user.updated" → users_of (payload e) s = [] → create = false →
      mirror_rel create e s s
  | mirror_stale u :
      ev_event e = "user.updated" → users_of (payload e) s = [u] →
      js_ge (row u !! "updatedAt") (payload e !! "updatedAt") = true →
      mirror_rel create e s s
  | mirror_patched u :
      ev_event e = "user.updated" → users_of (payload e) s = [u] →
      js_ge (row u !! "updatedAt") (payload e !! "updatedAt") = false →
      mirror_rel create e s (patch_user (_id u) (payload e) s)
  | mirror_deleted u :
      ev_event e = "user.deleted" → users_of (payload e) s = [u] →
      mirror_rel create e s (delete_user (_id u) s)
  | mirror_gone :
      ev_event e = "user.deleted" → users_of (payload e) s = [] →
      mirror_rel create e s s
  | mirror_other :
      ev_event e ≠ "user.created" → ev_event e ≠ "user.updated" →
      ev_event e ≠ "user.deleted" →
      mirror_rel create e s s.

Inductive notify_rel (handle : option string) (e : Event) (s : Store) : Store → Prop :=
  | notify_none :
      truthy handle = false → notify_rel handle e s s
  | notify_call h a :
      handle = Some h → truthy handle = true →
      runHandle h (ev_event e) (ev_data e) (app s) = Some a →
      notify_rel handle e s
        (record_call (mkHandlerCall (ev_id e) h (ev_event e) (ev_data e)) a s).

Inductive step_rel (create : bool) (handle : option string) (e : Event) (s : Store)
    : Store → Prop :=
  | step_known d :
      events_of (ev_id e) s = [d] → step_rel create handle e s s
  | step_new s1 s2 :
      events_of (ev_id e) s = [] →
      mirror_rel create e (add_event e s) s1 →
      notify_rel handle e s1 s2 →
      step_rel create handle e s s2.

(** The parts of [processEvent], in the order of its text: the check of the
    event id, then for a new event the insertion of its record, the [switch]
    on the event type ([create] is [args.createUserOnUpdate], which
    [src/component/lib.ts] does not have) and the call of the handle. *)
Definition mirror_step (create : bool) (event : Event) : M unit :=
  if decide (ev_event event = "user.created") then
    let data := omit (ev_data event) ["object"] in
    t ← gets users;
    existingUser ← unique (filter (λ d, row d !! "id" = data !! "id") t);
    match existingUser with
    | Some _ => console_warn [LStr "user already exists"; LVal (data !! "id")]
    | None => db_insert_users data
    end
  else if decide (ev_event event = "user.updated") then
    let data := omit (ev_data event) ["object"] in
    t ← gets users;
    user ← unique (filter (λ d, row d !! "id" = data !! "id") t);
    match user with
    | None =>
        if create
        then console_warn [LStr "user not found for update, creating:";
                           LVal (data !! "id")];;
             db_insert_users data
        else console_error [LStr "user not found"; LVal (data !! "id")]
    | Some user =>
        if js_ge (row user !! "updatedAt") (data !! "updatedAt")
        then console_warn [LStr ("user already updated for event "
                                 +:+ ev_id event +:+ ", skipping")]
        else db_patch_users (_id user) data
    end
  else if decide (ev_event event = "user.deleted") then
    let data := omit (ev_data event) ["object"] in
    t ← gets users;
    user ← unique (filter (λ d, row d !! "id" = data !! "id") t);
    match user with
    | None => console_warn [LStr "user not found"; LVal (data !! "id")]
    | Some user => db_delete_users (_id user)
    end
  else mret tt.

Definition notify_step (handle : option string) (event : Event) : M unit :=
  match handle with
  | Some h =>
      when (truthy (Some h))
        (runHandleMutation (ev_id event) h (ev_event event) (ev_data event))
  | None => mret tt
  end.

Definition new_event_step (create : bool) (handle : option string) (event : Event) : M unit :=
  db_insert_events (event_row event);;
  mirror_step create event;;
  notify_step handle event.

Definition dedup_step (l : option LogLevel) (create : bool) (handle : option string) (event : Event) : M unit :=
  when (bool_decide (l = Some DEBUG))
    (console_log [LStr "processing event"; LEvent event]);;
  t ← gets events;
  dbEvent ← unique (filter (λ d, eventId (row d) = ev_id event) t);
  match dbEvent with
  | Some _ => console_log [LStr "event already processed"; LStr (ev_id event)]
  | None => new_event_step create handle event
  end.

(** What an update with payload [d] does to the table [users]: the user of
    the payload, if there is one and it is older, takes the fields of [d]. *)
Definition updated_users (d : Data) (us : list (Doc Data)) : list (Doc Data) :=
  match filter (λ u : Doc Data, row u !! "id" = d !! "id") us with
  | [u] =>
      if js_ge (row u !! "updatedAt") (d !! "updatedAt") then us
      else patch_doc (λ r, d ∪ r) (_id u) <$> us
  | _ => us
  end.

(** The record [i] carries an [updatedAt] of at least [t], if it is there. *)
Definition at_least (i : nat) (t : string) (s : Store) : Prop :=
  wf s ∧ i < clock s ∧
  ∀ d, d ∈ users s → _id d = i →
       ∃ y, row d !! "updatedAt" = Some y ∧ String.ltb y t = false.

(** Applying an event: the world after [processEvent], committed or rolled
    back; and applying a sequence of events one after the other. *)
Definition apply_event (args : Lib.processEvent_args) (w : World) : World :=
  world_of (Lib.processEvent args w).

Definition apply_events (l : list Lib.processEvent_args) (w : World) : World :=
  foldl (λ w args, apply_event args w) w l.

(** The handle of a call, if there is one to invoke, does not throw. *)
Definition handle_ok (handle : option string) (e : Event) (s : Store) : Prop :=
  ∀ h, handle = Some h → truthy handle = true →
       is_Some (runHandle h (ev_event e) (ev_data e) (app s)).

(** The requests a run has sent, and the events the feed has answered. *)
Definition sent (w w' : World) : list Request :=
  drop (List.length (requests w)) (requests w').

Definition observed (apiKey : string) (rs : list Request) : list Event :=
  rs ≫= (λ r, data (listEvents apiKey r)).

(** The table [events] has only grown, by documents stamped at or after the
    clock of [s]. *)
Definition grows (s s' : Store) : Prop :=
  ∃ new, events s' = events s ++ new ∧
         Forall (λ d, clock s ≤ _creationTime d) new ∧
         clock s ≤ clock s'.

(** The counters and [lastEventId] of a reconciler run agree with the events
    [obs] observed so far. *)
Definition counted (r : Lib.backfillEvents_result) (obs : list Event) : Prop :=
  Lib.lastEventId r = last (ev_id <$> obs) ∧
  Lib.processed r + Lib.skipped r = List.length obs.

(** The last event observed is in the table [events]. *)
Definition last_recorded (r : Lib.backfillEvents_result) (s : Store) : Prop :=
  ∀ l, Lib.lastEventId r = Some l → events_of l s ≠ [].

(** What a part of a reconciler run that returns has done. *)
Record ran (r r' : Lib.backfillEvents_result) (l : list Event) (w w' : World) : Prop := {
  ran_syncState : syncState (store w') = syncState (store w);
  ran_grows : grows (store w) (store w');
  ran_wf : wf (store w) → wf (store w');
  ran_counted : ∀ obs, counted r obs → counted r' (obs ++ l);
  ran_recorded : last_recorded r (store w) → last_recorded r' (store w');
  ran_idle : l = [] → store w' = store w ∧ r' = r;
}.


(** Every record of the table [events] of [s'] is a record of [s] or the
    record of one of the events [l]. *)
Definition from_events (l : list Event) (s s' : Store) : Prop :=
  ∀ d, d ∈ events s' → d ∈ events s ∨ ∃ e, e ∈ l ∧ row d = event_row e.

End Steps.

(** ** Example events and worlds *)

Module Example.

(** A host with an empty feed, whose application accepts every call of a
    handle. *)
Definition host : Host := exampleHost [] 10.
Definition world : @World host := emptyWorld [] 10.

Definition args (e : Event) : @Lib.processEvent_args :=
  Lib.Build_processEvent_args e None (Some "onEvent").

Definition e_created : Event :=
  mkEvent "event_01" "2024-01-01T00:00:00.000Z" "user.created" (userData "user_01" "1").

(** The world after the user [user_01] was created. *)
Definition world1 : @World host := @apply_event host (args e_created) world.

Definition e_upd_ann : Event :=
  mkEvent "event_02" "2024-01-02T00:00:00.000Z" "user.updated"
    (<["firstName" := "Ann"]> (userData "user_01" "2")).
Definition e_upd2 : Event :=
  mkEvent "event_03" "2024-01-03T00:00:00.000Z" "user.updated" (userData "user_01" "3").
Definition e_upd3 : Event :=
  mkEvent "event_04" "2024-01-04T00:00:00.000Z" "user.updated" (userData "user_01" "4").

Definition e_stale : Event :=
  mkEvent "event_00" "2024-01-01T00:00:00.000Z" "user.updated" (userData "user_01" "0").
Definition e_created5 : Event :=
  mkEvent "event_05" "2024-01-05T00:00:00.000Z" "user.created" (userData "user_01" "5").
Definition e_deleted : Event :=
  mkEvent "event_06" "2024-01-06T00:00:00.000Z" "user.deleted" (userData "user_01" "5").
Definition nth_user `{Host} (n : nat) (w : World) : Doc Data :=
  default (mkDoc 0 0 ∅) (users (store w) !! n).

Definition range_args (e : Event) (create : option bool) : @LibRange.processEvent_args :=
  LibRange.Build_processEvent_args e None (Some "onEvent") create.

Definition e_noid : Event :=
  mkEvent "" "2024-01-07T00:00:00.000Z" "user.deleted" (userData "user_09" "1").
Definition e_a : Event :=
  mkEvent "event_a" "2024-01-08T00:00:00.000Z" "organization.created" ∅.

Definition host_feed : Host := exampleHost [e_created; e_upd2] 1.
Definition host_noid : Host := exampleHost [e_noid] 10.

Definition bf_args (types : option (list string)) : @Lib.backfillEvents_args :=
  Lib.Build_backfillEvents_args "sk_test" None types None.
Definition pull_args (types : option (list string)) : @Lib.updateEvents_args :=
  Lib.Build_updateEvents_args "sk_test" None types None.
Definition no_result : @Lib.backfillEvents_result :=
  Lib.Build_backfillEvents_result 0 0 None.

(** The feed [e_created, e_upd2] reconciled from the empty store, and
    reconciled again when both events are recorded. *)
Definition run_feed := @Lib.backfillEvents host_feed 5 (bf_args None)
                         (emptyWorld [e_created; e_upd2] 1).
Definition world_feed : @World host_feed :=
  @apply_events host_feed [args e_created; args e_upd2]
    (emptyWorld [e_created; e_upd2] 1).
Definition run_again := @Lib.backfillEvents host_feed 5 (bf_args None) world_feed.

(** A feed whose only event has the empty id. *)
Definition run_noid := @Lib.backfillEvents host_noid 5 (bf_args None) (emptyWorld [e_noid] 10).


End Example.

(** ** Further observations *)

Section Properties.
Context `{Host}.


(** The event id [i] is in the table [events]. *)
Definition recorded (i : string) (s : Store) : Prop :=
  ∃ d, d ∈ events s ∧ eventId (row d) = i.

(** The requests [rs] walk the feed from [cursor]: each asks for
    [eventTypes] after the continuation token of the answer before it, with
    no range start, and a request follows only an answer whose token is
    truthy. *)
Fixpoint follows (apiKey : string) (eventTypes : list string) (cursor : option string)
    (rs : list Request) : Prop :=
  match rs with
  | [] => True
  | r :: rs' =>
      r = mkRequest eventTypes cursor None ∧
      (rs' = [] ∨ truthy (listMetadata_after (listEvents apiKey r)) = true) ∧
      follows apiKey eventTypes (listMetadata_after (listEvents apiKey r)) rs'
  end.

(** A property of the store that every application of an event keeps. *)
Definition applier_invariant (P : Store → Prop) : Prop :=
  ∀ (args : Lib.processEvent_args) (w : World),
    P (store w) → P (store (apply_event args w)).

(** A property of the store that every update of the Checkpoint keeps. *)
Definition checkpoint_invariant (P : Store → Prop) : Prop :=
  ∀ (l : string) (w : World),
    P (store w) → P (store (world_of (Lib.updateLastCheckpointedEventId l w))).

(** Two outcomes that differ in the console only. *)
Definition same_but_console {A} (r r' : Res A) : Prop :=
  match r, r' with
  | Ok a w, Ok a' w' => a = a' ∧ store w = store w' ∧ requests w = requests w'
  | Throw w, Throw w' => store w = store w' ∧ requests w = requests w'
  | Timeout w, Timeout w' => store w = store w' ∧ requests w = requests w'
  | _, _ => False
  end.


End Properties.

(** ** Further example worlds *)

Module Scenario.

(** A host whose application rejects every call of a handle. *)
Definition host_failing : Host := {|
  App := unit;
  runHandle := λ _ _ _ _, None;
  usersValidator := usersSchema;
  listEvents := λ _, listFeed [] 10;
  Date_now := 1700000000000%Z;
  toISOString := pretty;
  Pool := list string;
  cancelAll := λ _, [];
  enqueueAction := λ _ name _ p, p ++ [name];
|}.
Definition world_failing : @World host_failing :=
  @mkWorld host_failing (@emptyStore host_failing [] tt) [] [].

(** The feed [e_created, e_upd2] pulled from the empty store. *)
Definition world_empty : @World Example.host_feed :=
  emptyWorld [Example.e_created; Example.e_upd2] 1.
Definition run_pull := @Lib.updateEvents Example.host_feed 5 (Example.pull_args None) world_empty.

(** The user [user_01] deleted, and updated. *)
Definition world_deleted : @World Example.host :=
  @apply_event Example.host (Example.args Example.e_deleted) Example.world1.
Definition world_upd2 : @World Example.host :=
  @apply_event Example.host (Example.args Example.e_upd2) Example.world1.

(** An update for a user that is not there, with [createUserOnUpdate]. *)
Definition world_range : @World Example.host :=
  world_of (@LibRange.processEvent Example.host
              (Example.range_args Example.e_upd2 (Some true)) Example.world).

(** The Checkpoint set to the event [event_01]. *)
Definition world_cp : @World Example.host :=
  world_of (@Lib.updateLastCheckpointedEventId Example.host "event_01" Example.world1).


End Scenario.

(** ** Tactics *)

Ltac munfold :=
  unfold internalMutation, mutation, internalQuery, query, internalAction, atomically,
    when, gets, modify, console_log, console_warn, console_error, console_at,
    db_insert_events, db_insert_users, db_insert_syncState, db_patch_users,
    db_patch_syncState_value, db_delete_users, runHandleMutation, unique, throw, timeout,
    mbind, M_bind, mret, M_ret in *.

(** Case analysis on the innermost scrutinee that blocks the evaluation. *)
Ltac inner_match :=
  match goal with
  | |- context [match ?x with _ => _ end] =>
      lazymatch x with
      | context [match _ with _ => _ end] => fail
      | _ => destruct x eqn:?
      end
  end.

Ltac run_code := repeat (inner_match; simpl; simplify_eq; try done).


(** ** The order on strings *)

Lemma ascii_compare_N (a b : Ascii.ascii) :
  Ascii.compare a b = N.compare (Ascii.N_of_ascii a) (Ascii.N_of_ascii b).
Proof. reflexivity. Qed.

Lemma string_compare_refl (s : string) : String.compare s s = Eq.
Proof.
  induction s as [|c s IH]; simpl; [reflexivity|].
  rewrite ascii_compare_N, N.compare_refl. exact IH.
Qed.

Lemma string_compare_lt_trans (s1 s2 s3 : string) :
  String.compare s1 s2 = Lt → String.compare s2 s3 = Lt →
  String.compare s1 s3 = Lt.
Proof.
  revert s2 s3. induction s1 as [|c1 s1 IH]; intros [|c2 s2] [|c3 s3];
    simpl; try congruence.
  rewrite !ascii_compare_N.
  destruct (N.compare_spec (Ascii.N_of_ascii c1) (Ascii.N_of_ascii c2)) as [E12|L12|G12];
    destruct (N.compare_spec (Ascii.N_of_ascii c2) (Ascii.N_of_ascii c3)) as [E23|L23|G23];
    try congruence; intros H12 H23.
  - rewrite E12, E23, N.compare_refl. eauto.
  - rewrite E12. by apply N.compare_lt_iff in L23 as ->.
  - rewrite <- E23. by apply N.compare_lt_iff in L12 as ->.
  - assert (Ascii.N_of_ascii c1 < Ascii.N_of_ascii c3)%N as L by lia.
    by apply N.compare_lt_iff in L as ->.
Qed.

Lemma string_ltb_irrefl (s : string) : String.ltb s s = false.
Proof. unfold String.ltb. by rewrite string_compare_refl. Qed.

Lemma string_ltb_trans (s1 s2 s3 : string) :
  String.ltb s1 s2 = true → String.ltb s2 s3 = true → String.ltb s1 s3 = true.
Proof.
  unfold String.ltb.
  destruct (String.compare s1 s2) eqn:E12; try discriminate.
  destruct (String.compare s2 s3) eqn:E23; try discriminate.
  by rewrite (string_compare_lt_trans _ _ _ E12 E23).
Qed.

Lemma string_ltb_asym (s1 s2 : string) :
  String.ltb s1 s2 = true → String.ltb s2 s1 = false.
Proof.
  unfold String.ltb. rewrite (String.compare_antisym s2 s1).
  by destruct (String.compare s1 s2).
Qed.

Lemma string_ltb_total (s1 s2 : string) :
  String.ltb s1 s2 = false → String.ltb s2 s1 = false → s1 = s2.
Proof.
  unfold String.ltb. rewrite (String.compare_antisym s2 s1).
  destruct (String.compare s1 s2) eqn:E; simpl; try discriminate.
  intros _ _. by apply String.compare_eq_iff.
Qed.

Lemma string_lt_le_trans (s1 s2 s3 : string) :
  String.ltb s1 s2 = true → String.ltb s3 s2 = false → String.ltb s1 s3 = true.
Proof.
  intros H12 H32. destruct (String.ltb s2 s3) eqn:H23.
  - eauto using string_ltb_trans.
  - by rewrite <- (string_ltb_total _ _ H23 H32).
Qed.

(** [s3 >= s2 >= s1] gives [s3 >= s1]. *)
Lemma string_ge_trans (s1 s2 s3 : string) :
  String.ltb s2 s1 = false → String.ltb s3 s2 = false → String.ltb s3 s1 = false.
Proof.
  intros H21 H32. destruct (String.ltb s3 s1) eqn:H31; [|done].
  by rewrite (string_lt_le_trans _ _ _ H31 H21) in H32.
Qed.

(** ** The applier takes the steps of [step_rel] *)

Section Applier.
Context `{Host}.

Lemma processEvent_unfold (args : LibRange.processEvent_args) :
  LibRange.processEvent args =
  atomically (dedup_step (LibRange.pe_logLevel args)
    (default false (LibRange.pe_createUserOnUpdate args))
    (LibRange.pe_onEventHandle args) (LibRange.pe_event args)).
Proof. reflexivity. Qed.

Lemma Lib_processEvent_unfold (args : Lib.processEvent_args) :
  Lib.processEvent args =
  atomically (dedup_step (Lib.pe_logLevel args) false
    (Lib.pe_onEventHandle args) (Lib.pe_event args)).
Proof. reflexivity. Qed.

(** [src/component/lib.ts] applies an event as the revision with
    [createUserOnUpdate] does when the argument is left out. *)
Lemma processEvent_revisions (e : Event) (l : option LogLevel) (h : option string) (w : World) :
  Lib.processEvent (Lib.Build_processEvent_args e l h) w
  = LibRange.processEvent (LibRange.Build_processEvent_args e l h None) w.
Proof. reflexivity. Qed.

Lemma mirror_step_spec (create : bool) (e : Event) (w : World) :
  match mirror_step create e w with
  | Ok _ w' => requests w' = requests w ∧ mirror_rel create e (store w) (store w')
  | Throw w' => requests w' = requests w
  | Timeout _ => False
  end.
Proof.
  unfold mirror_step. munfold. simpl. fold (payload e).
  run_code.
  all: split; [done|]; try fold (users_of (payload e) (store w)) in *.
  all: eauto using mirror_rel.
Qed.

Lemma notify_step_spec (handle : option string) (e : Event) (w : World) :
  match notify_step handle e w with
  | Ok _ w' => requests w' = requests w ∧ notify_rel handle e (store w) (store w')
  | Throw w' => requests w' = requests w
  | Timeout _ => False
  end.
Proof.
  unfold notify_step. munfold. simpl. run_code.
  all: split; [done|].
  - by eapply notify_call.
  - by apply notify_none.
  - by apply notify_none.
Qed.

Lemma new_event_step_spec (create : bool) (handle : option string) (e : Event) (w : World) :
  match new_event_step create handle e w with
  | Ok _ w' =>
      requests w' = requests w ∧
      ∃ s1, mirror_rel create e (add_event e (store w)) s1 ∧
            notify_rel handle e s1 (store w')
  | Throw w' => requests w' = requests w
  | Timeout _ => False
  end.
Proof.
  unfold new_event_step, db_insert_events, modify, mbind, M_bind. simpl.
  match goal with |- context [mirror_step create e ?w1] =>
    pose proof (mirror_step_spec create e w1) as Hm;
    destruct (mirror_step create e w1) as [[] w2|w2|w2]; try done end.
  pose proof (notify_step_spec handle e w2) as Hn.
  destruct (notify_step handle e w2) as [[] w3|w3|w3]; try done.
  - destruct Hm as [Hr Hm], Hn as [Hr' Hn]. simpl in *.
    split; [congruence|]. eauto.
  - destruct Hm as [Hr Hm]. simpl in *. congruence.
Qed.

Lemma dedup_step_spec (l : option LogLevel) (create : bool) (handle : option string)
    (e : Event) (w : World) :
  match atomically (dedup_step l create handle e) w with
  | Ok _ w' => requests w' = requests w ∧ step_rel create handle e (store w) (store w')
  | Throw w' => store w' = store w ∧ requests w' = requests w
  | Timeout _ => False
  end.
Proof.
  unfold atomically, dedup_step, when, console_log, console_at, gets, unique, throw,
    mbind, M_bind, mret, M_ret.
  destruct (bool_decide (l = Some DEBUG)); simpl;
    fold (events_of (ev_id e) (store w));
    destruct (events_of (ev_id e) (store w)) as [|d [|d' ds]] eqn:E; simpl;
    try (split; [done|]; by eapply step_known); try done;
    (match goal with |- context [new_event_step create handle e ?w1] =>
       pose proof (new_event_step_spec create handle e w1) as Hs;
       destruct (new_event_step create handle e w1) as [[] w2|w2|w2]; try done end);
    destruct Hs as [Hr (s1 & Hm & Hn)]; simpl in *;
    (split; [done|]); by eapply step_new.
Qed.

(** The code of the applier takes the steps of [step_rel] and no others; a
    call that throws leaves the store as it was. *)
Lemma processEvent_step (args : LibRange.processEvent_args) (w : World) :
  match LibRange.processEvent args w with
  | Ok _ w' =>
      requests w' = requests w ∧
      step_rel (default false (LibRange.pe_createUserOnUpdate args))
        (LibRange.pe_onEventHandle args) (LibRange.pe_event args) (store w) (store w')
  | Throw w' => store w' = store w ∧ requests w' = requests w
  | Timeout _ => False
  end.
Proof. rewrite processEvent_unfold. apply dedup_step_spec. Qed.

Lemma Lib_processEvent_step (args : Lib.processEvent_args) (w : World) :
  match Lib.processEvent args w with
  | Ok _ w' =>
      requests w' = requests w ∧
      step_rel false (Lib.pe_onEventHandle args) (Lib.pe_event args) (store w) (store w')
  | Throw w' => store w' = store w ∧ requests w' = requests w
  | Timeout _ => False
  end.
Proof. rewrite Lib_processEvent_unfold. apply dedup_step_spec. Qed.

End Applier.

(** ** What the steps leave alone *)

Section Frame.
Context `{Host}.

Lemma mirror_rel_frame create e (s s' : Store) :
  mirror_rel create e s s' →
  events s' = events s ∧ syncState s' = syncState s ∧ pool s' = pool s ∧
  app s' = app s ∧ calls s' = calls s ∧ clock s ≤ clock s'.
Proof. destruct 1; simpl; repeat split; lia. Qed.

Lemma notify_rel_frame handle e (s s' : Store) :
  notify_rel handle e s s' →
  events s' = events s ∧ users s' = users s ∧ syncState s' = syncState s ∧
  pool s' = pool s ∧ clock s' = clock s.
Proof. by destruct 1. Qed.


(** A step records the event once, at the end of the table, or not at all. *)
Lemma step_rel_events create handle e (s s' : Store) :
  step_rel create handle e s s' →
  (s' = s ∧ ∃ d, events_of (ev_id e) s = [d]) ∨
  (events_of (ev_id e) s = [] ∧ events s' = events s ++ [stamp s (event_row e)] ∧
   clock s < clock s').
Proof.
  destruct 1 as [d E|s1 s2 E Hm Hn]; [left; eauto|right].
  apply mirror_rel_frame in Hm as (Hm & _ & _ & _ & _ & Hc).
  apply notify_rel_frame in Hn as (Hn & _ & _ & _ & Hc').
  simpl in *. split; [done|]. split; [congruence|lia].
Qed.

Lemma step_rel_frame create handle e (s s' : Store) :
  step_rel create handle e s s' →
  syncState s' = syncState s ∧ pool s' = pool s ∧ clock s ≤ clock s'.
Proof.
  destruct 1 as [d E|s1 s2 E Hm Hn]; [done|].
  apply mirror_rel_frame in Hm as (_ & Hm & Hp & _ & _ & Hc).
  apply notify_rel_frame in Hn as (_ & _ & Hn & Hp' & Hc').
  simpl in *. repeat split; [congruence..|lia].
Qed.


(** An event that is recorded once is absorbed: the call returns with the
    store as it was. *)
Lemma dedup_step_known l create handle e d (w : World) :
  events_of (ev_id e) (store w) = [d] →
  ∃ c, atomically (dedup_step l create handle e) w = Ok tt (mkWorld (store w) c (requests w)).
Proof.
  intros E. unfold atomically, dedup_step, when, console_log, console_at, gets, unique,
    mbind, M_bind, mret, M_ret.
  destruct (bool_decide (l = Some DEBUG)); simpl;
    fold (events_of (ev_id e) (store w)); rewrite E; simpl; eauto.
Qed.


(** An application that does not return leaves the store as it was. *)
Lemma apply_step (args : Lib.processEvent_args) (w : World) :
  store (apply_event args w) = store w ∨
  step_rel false (Lib.pe_onEventHandle args) (Lib.pe_event args) (store w)
    (store (apply_event args w)).
Proof.
  unfold apply_event. pose proof (Lib_processEvent_step args w) as Hs.
  destruct (Lib.processEvent args w) as [[] w'|w'|w']; simpl; [|by left; tauto|done].
  right. tauto.
Qed.

End Frame.

(** ** Deduplication by event id *)

Section Dedup.
Context `{Host}.

Lemma events_of_recorded create handle e (s s' : Store) :
  step_rel create handle e s s' → ∃ d, events_of (ev_id e) s' = [d].
Proof.
  intros Hs. apply step_rel_events in Hs as [[-> [d E]]|(E & Hev & _)]; [eauto|].
  exists (stamp s (event_row e)).
  unfold events_of in *. rewrite Hev, filter_app, E. simpl.
  rewrite filter_cons_True by done. done.
Qed.

Lemma events_of_grows create handle e i (s s' : Store) :
  step_rel create handle e s s' → events_of i s ≠ [] → events_of i s' ≠ [].
Proof.
  intros Hs. apply step_rel_events in Hs as [[-> _]|(_ & Hev & _)]; [done|].
  unfold events_of. rewrite Hev, filter_app. by destruct (filter _ (events s)).
Qed.



End Dedup.





(** ** Applying an event keeps the store well formed *)

Section Wf.
Context `{Host}.

Lemma unique_match {A B} `{EqDecision B} (f : A → B) (l : list A) (x y : A) :
  NoDup (f <$> l) → x ∈ l → y ∈ l → f x = f y → x = y.
Proof.
  induction l as [|a l IH]; simpl; intros Hnd Hx Hy Hf; [by apply elem_of_nil in Hx|].
  apply NoDup_cons in Hnd as [Ha Hnd].
  apply elem_of_cons in Hx as [->|Hx], Hy as [->|Hy]; auto.
  - exfalso. apply Ha. rewrite Hf. apply list_elem_of_fmap. eauto.
  - exfalso. apply Ha. rewrite <- Hf. apply list_elem_of_fmap. eauto.
Qed.

Lemma filter_singleton_elem {A} (P : A → Prop) `{∀ x, Decision (P x)} (l : list A) (u : A) :
  filter P l = [u] → u ∈ l ∧ P u.
Proof.
  intros E. assert (u ∈ filter P l) as Hu by (rewrite E; apply list_elem_of_singleton; done).
  apply list_elem_of_filter in Hu. tauto.
Qed.

Lemma wf_add_event e (s : Store) :
  events_of (ev_id e) s = [] → wf s → wf (add_event e s).
Proof.
  intros E [He Hu Hui Hsk Hsi Hec Huc Hsc]. split; simpl; try done.
  - rewrite fmap_app. apply NoDup_app. split; [done|]. split; [|apply NoDup_singleton].
    intros i Hi ->%list_elem_of_singleton.
    apply list_elem_of_fmap in Hi as (d & Hd & Hin).
    eapply (filter_nil_not_elem_of _ _ d); [exact E| |exact Hin]. done.
  - apply Forall_app. split; [|repeat constructor; simpl; lia].
    eapply Forall_impl; [exact Hec|]. simpl. intros; lia.
  - eapply Forall_impl; [exact Huc|]. simpl. intros; lia.
  - eapply Forall_impl; [exact Hsc|]. simpl. intros; lia.
Qed.

Lemma wf_add_user d (s : Store) :
  users_of d s = [] → wf s → wf (add_user d s).
Proof.
  intros E [He Hu Hui Hsk Hsi Hec Huc Hsc]. split; simpl; try done.
  - rewrite fmap_app. apply NoDup_app. split; [done|]. split; [|apply NoDup_singleton].
    intros i Hi ->%list_elem_of_singleton.
    apply list_elem_of_fmap in Hi as (u & Hd & Hin).
    eapply (filter_nil_not_elem_of _ _ u); [exact E| |exact Hin]. done.
  - rewrite fmap_app. apply NoDup_app. split; [done|]. split; [|apply NoDup_singleton].
    intros i Hi ->%list_elem_of_singleton.
    apply list_elem_of_fmap in Hi as (u & Hd & Hin).
    rewrite Forall_forall in Huc. apply Huc in Hin. simpl in Hd. lia.
  - eapply Forall_impl; [exact Hec|]. simpl. intros; lia.
  - apply Forall_app. split; [|repeat constructor; simpl; lia].
    eapply Forall_impl; [exact Huc|]. simpl. intros; lia.
  - eapply Forall_impl; [exact Hsc|]. simpl. intros; lia.
Qed.

Lemma patch_doc_id {A} (m : A → A) i (d : Doc A) : _id (patch_doc m i d) = _id d.
Proof. unfold patch_doc. by case_decide. Qed.

Lemma union_lookup_same (d r : Data) (k : string) :
  r !! k = d !! k → (d ∪ r) !! k = r !! k.
Proof.
  intros E. rewrite lookup_union, E. by destruct (d !! k).
Qed.

(** The patch of [processEvent] keeps the field [id] of every user. *)
Lemma patch_user_ids u d (s : Store) :
  wf s → users_of d s = [u] →
  (λ x : Doc Data, row x !! "id") <$> users (patch_user (_id u) d s)
  = (λ x : Doc Data, row x !! "id") <$> users s.
Proof.
  intros Hwf [Hu Hid]%filter_singleton_elem. simpl.
  rewrite <- list_fmap_compose. apply list_fmap_ext. intros k x Hx. simpl.
  unfold patch_doc. case_decide as Hi; [|done]. simpl.
  assert (x = u) as ->.
  { eapply (unique_match _id); eauto using list_elem_of_lookup_2. apply Hwf. }
  by apply union_lookup_same.
Qed.

Lemma wf_patch_user u d (s : Store) :
  users_of d s = [u] → wf s → wf (patch_user (_id u) d s).
Proof.
  intros E Hwf. pose proof (patch_user_ids u d s Hwf E) as Hids.
  destruct Hwf as [He Hu Hui Hsk Hsi Hec Huc Hsc]. split; try done.
  - by rewrite Hids.
  - simpl. rewrite <- list_fmap_compose.
    erewrite list_fmap_ext; [exact Hui|]. intros. simpl. apply patch_doc_id.
  - simpl. apply Forall_fmap. eapply Forall_impl; [exact Huc|].
    intros x Hx. simpl. by rewrite patch_doc_id.
Qed.

Lemma wf_delete_user i (s : Store) : wf s → wf (delete_user i s).
Proof.
  intros [He Hu Hui Hsk Hsi Hec Huc Hsc]. split; simpl; try done.
  - eapply sublist_NoDup; [exact Hu|]. apply fmap_sublist, sublist_filter.
  - eapply sublist_NoDup; [exact Hui|]. apply fmap_sublist, sublist_filter.
  - rewrite Forall_forall in *. intros x [_ Hx]%list_elem_of_filter. auto.
Qed.

Lemma mirror_rel_wf create e (s s' : Store) : mirror_rel create e s s' → wf s → wf s'.
Proof.
  destruct 1; eauto using wf_add_user, wf_patch_user, wf_delete_user.
Qed.

Lemma notify_rel_wf handle e (s s' : Store) : notify_rel handle e s s' → wf s → wf s'.
Proof. destruct 1; [done|]. intros [? ? ? ? ? ? ? ?]. by split. Qed.

Lemma step_rel_wf create handle e (s s' : Store) :
  step_rel create handle e s s' → wf s → wf s'.
Proof.
  destruct 1; eauto using wf_add_event, mirror_rel_wf, notify_rel_wf.
Qed.

Lemma apply_event_wf (args : Lib.processEvent_args) (w : World) :
  wf (store w) → wf (store (apply_event args w)).
Proof.
  intros Hwf. destruct (apply_step args w) as [->|Hs]; [done|].
  eapply step_rel_wf; eauto.
Qed.

Lemma apply_events_wf (l : list Lib.processEvent_args) (w : World) :
  wf (store w) → wf (store (apply_events l w)).
Proof.
  revert w. induction l as [|a l IH]; intros w Hwf; [done|].
  simpl. apply IH. by apply apply_event_wf.
Qed.

End Wf.

(** ** Updates of one user: the last writer wins *)

Section Updated.
Context `{Host}.

Lemma payload_lookup (e : Event) (k : string) :
  k ≠ "object" → payload e !! k = ev_data e !! k.
Proof. intros Hk. unfold payload, omit. simpl. by rewrite lookup_delete_ne. Qed.

Lemma filter_unique {A B} `{EqDecision B} (f : A → B) (k : B) (l : list A) :
  NoDup (f <$> l) → filter (λ x, f x = k) l = [] ∨ ∃ u, filter (λ x, f x = k) l = [u].
Proof.
  induction l as [|a l IH]; simpl; intros Hnd; [by left|].
  apply NoDup_cons in Hnd as [Ha Hnd]. rewrite filter_cons.
  destruct (decide (f a = k)) as [Hk|Hk]; [|by apply IH].
  right. exists a. f_equal.
  destruct (filter (λ x, f x = k) l) as [|b l'] eqn:E; [done|]. exfalso.
  assert (b ∈ filter (λ x, f x = k) l) as Hb by (rewrite E; left).
  apply list_elem_of_filter in Hb as [Hb Hin]. apply Ha.
  rewrite Hk, <- Hb. apply list_elem_of_fmap. eauto.
Qed.

Lemma filter_fmap_stable {A} (P : A → Prop) `{∀ x, Decision (P x)} (f : A → A) (l : list A) :
  (∀ x, x ∈ l → P (f x) ↔ P x) → filter P (f <$> l) = f <$> filter P l.
Proof.
  induction l as [|a l IH]; intros Hf; [done|].
  rewrite fmap_cons, !filter_cons.
  assert (P (f a) ↔ P a) as Ha by (apply Hf; left).
  rewrite IH by (intros x Hx; apply Hf; by right).
  destruct (decide (P (f a))), (decide (P a)); tauto || done.
Qed.

Lemma step_rel_updated handle e (s s' : Store) :
  step_rel false handle e s s' → ev_event e = "user.updated" →
  events_of (ev_id e) s = [] →
  users s' = updated_users (payload e) (users s).
Proof.
  destruct 1 as [d E|s1 s2 E Hm Hn]; intros Hty E'; [congruence|].
  apply notify_rel_frame in Hn as (_ & -> & _).
  unfold updated_users.
  inversion Hm as [Ht Hu|u Ht Hu|Ht Hu Hc|Ht Hu Hc|u Ht Hu Hj|u Ht Hu Hj|u Ht Hu|Ht Hu|Ht];
    subst; try congruence; unfold users_of in Hu; simpl in Hu.
  - by rewrite Hu.
  - by rewrite Hu, Hj.
  - by rewrite Hu, Hj.
Qed.

Lemma step_rel_known_users create handle e (s s' : Store) :
  step_rel create handle e s s' → events_of (ev_id e) s ≠ [] → users s' = users s.
Proof. destruct 1; [done|congruence]. Qed.

Lemma patch_doc_twice {A} (m1 m2 : A → A) (i : nat) (d : Doc A) :
  patch_doc m2 i (patch_doc m1 i d) = patch_doc (m2 ∘ m1) i d.
Proof.
  unfold patch_doc. destruct (decide (_id d = i)); simpl.
  - by rewrite decide_True.
  - by rewrite decide_False.
Qed.

Lemma union_absorb (d1 d2 r : Data) :
  dom d1 ⊆ dom d2 → d2 ∪ (d1 ∪ r) = d2 ∪ r.
Proof.
  intros Hdom. apply map_eq. intros k. rewrite !lookup_union.
  destruct (d2 !! k) eqn:E2; [by destruct (d1 !! k), (r !! k)|].
  assert (d1 !! k = None) as ->; [|by destruct (r !! k)].
  apply not_elem_of_dom. intros Hk. apply Hdom in Hk.
  apply elem_of_dom in Hk as [? ?]. congruence.
Qed.

Section Two.
Variables (d1 d2 : Data) (t1 t2 : string) (us : list (Doc Data)).
Hypothesis Hid : d1 !! "id" = d2 !! "id".
Hypothesis Ht1 : d1 !! "updatedAt" = Some t1.
Hypothesis Ht2 : d2 !! "updatedAt" = Some t2.
Hypothesis Hlt : String.ltb t1 t2 = true.
Hypothesis Hids : NoDup ((λ u : Doc Data, row u !! "id") <$> us).
Hypothesis H_ids : NoDup (_id <$> us).

Lemma patched_users_of (d : Data) (u : Doc Data) :
  d !! "id" = d2 !! "id" →
  filter (λ x : Doc Data, row x !! "id" = d2 !! "id") us = [u] →
  filter (λ x : Doc Data, row x !! "id" = d2 !! "id")
    (patch_doc (λ r, d ∪ r) (_id u) <$> us)
  = [patch_doc (λ r, d ∪ r) (_id u) u].
Proof.
  intros Hd E. rewrite filter_fmap_stable; [by rewrite E|].
  intros x Hx. unfold patch_doc. case_decide as Hi; [|done]. simpl.
  apply filter_singleton_elem in E as [Hu Hidu].
  assert (x = u) as -> by (eapply (unique_match _id); eauto).
  rewrite union_lookup_same; [done|]. congruence.
Qed.

Lemma patched_updatedAt (d : Data) (t : string) (u : Doc Data) :
  d !! "updatedAt" = Some t →
  row (patch_doc (λ r, d ∪ r) (_id u) u) !! "updatedAt" = Some t.
Proof.
  intros Hd. unfold patch_doc. rewrite decide_True by done. simpl.
  rewrite lookup_union, Hd. by destruct (row u !! "updatedAt").
Qed.

(** The older update after the newer one is stale. *)
Lemma updated_older_after_newer :
  updated_users d1 (updated_users d2 us) = updated_users d2 us.
Proof.
  unfold updated_users at 2 3.
  destruct (filter_unique (λ u : Doc Data, row u !! "id") (d2 !! "id") us Hids) as [E|[u E]];
    rewrite E.
  { unfold updated_users. by rewrite Hid, E. }
  destruct (js_ge (row u !! "updatedAt") (d2 !! "updatedAt")) eqn:Hj.
  - unfold updated_users. rewrite Hid, E.
    assert (js_ge (row u !! "updatedAt") (d1 !! "updatedAt") = true) as ->; [|done].
    rewrite Ht2 in Hj. rewrite Ht1. unfold js_ge in *.
    destruct (row u !! "updatedAt") as [s|]; [|done].
    apply negb_true_iff in Hj. rewrite negb_true_iff.
    destruct (String.ltb s t1) eqn:Hs; [|done].
    by rewrite (string_ltb_trans _ _ _ Hs Hlt) in Hj.
  - unfold updated_users. rewrite Hid, (patched_users_of d2 u eq_refl E).
    rewrite (patched_updatedAt d2 t2 u Ht2), Ht1. simpl.
    by rewrite (string_ltb_asym _ _ Hlt).
Qed.

(** The newer update after the older one leaves what the newer one alone
    leaves, when it carries every field the older one carries. *)
Lemma updated_newer_after_older :
  dom d1 ⊆ dom d2 →
  updated_users d2 (updated_users d1 us) = updated_users d2 us.
Proof.
  intros Hdom. unfold updated_users at 2. rewrite Hid.
  destruct (filter_unique (λ u : Doc Data, row u !! "id") (d2 !! "id") us Hids) as [E|[u E]];
    rewrite E; [done|].
  destruct (js_ge (row u !! "updatedAt") (d1 !! "updatedAt")) eqn:Hj; [done|].
  unfold updated_users.
  pose proof (patched_users_of d1 u Hid E) as E1.
  rewrite E1.
  rewrite E.
  rewrite (patched_updatedAt d1 t1 u Ht1), Ht2. simpl. rewrite Hlt. simpl.
  rewrite patch_doc_id.
  assert (js_ge (row u !! "updatedAt") (Some t2) = false) as ->.
  { rewrite Ht1 in Hj. unfold js_ge in *.
    destruct (row u !! "updatedAt") as [s|]; [|done].
    apply negb_false_iff in Hj. by rewrite (string_ltb_trans _ _ _ Hj Hlt). }
  rewrite <- list_fmap_compose. apply list_fmap_ext. intros k x Hx. simpl.
  rewrite patch_doc_twice. unfold patch_doc. case_decide; [|done].
  simpl. by rewrite union_absorb.
Qed.

End Two.
End Updated.

Lemma returned_Ok `{Host} (args : Lib.processEvent_args) (w : World) :
  returned (Lib.processEvent args w) = true →
  Lib.processEvent args w = Ok tt (apply_event args w).
Proof. unfold apply_event. by destruct (Lib.processEvent args w) as [[] w'|w'|w']. Qed.

(** C2, as amended. Two [user.updated] events [e1], [e2] for the same user id
    with [e1.updatedAt < e2.updatedAt], [e2] not yet recorded and of another
    event id than [e1], on a well-formed store: applied in the order [e2],
    [e1] they leave the table [users] as [e2] alone leaves it; applied in the
    order [e1], [e2] they do so when the data of [e2] carries every field
    that the data of [e1] carries (the patch is a shallow merge). *)
Theorem updated_last_writer_wins `{Host} (a1 a2 : Lib.processEvent_args) (t1 t2 : string)
    (w w2 : World) :
  wf (store w) →
  ev_event (Lib.pe_event a1) = "user.updated" →
  ev_event (Lib.pe_event a2) = "user.updated" →
  ev_data (Lib.pe_event a1) !! "id" = ev_data (Lib.pe_event a2) !! "id" →
  ev_data (Lib.pe_event a1) !! "updatedAt" = Some t1 →
  ev_data (Lib.pe_event a2) !! "updatedAt" = Some t2 →
  String.ltb t1 t2 = true →
  ev_id (Lib.pe_event a1) ≠ ev_id (Lib.pe_event a2) →
  events_of (ev_id (Lib.pe_event a2)) (store w) = [] →
  Lib.processEvent a2 w = Ok tt w2 →
  (∀ w21, Lib.processEvent a1 w2 = Ok tt w21 → users (store w21) = users (store w2)) ∧
  (∀ w1 w12,
     dom (payload (Lib.pe_event a1)) ⊆ dom (payload (Lib.pe_event a2)) →
     Lib.processEvent a1 w = Ok tt w1 → Lib.processEvent a2 w1 = Ok tt w12 →
     users (store w12) = users (store w2)).
Proof.
  intros Hwf Hty1 Hty2 Hid Ht1 Ht2 Hlt Hne Hnew Hrun2.
  rewrite <- (payload_lookup _ "id") in Hid by done.
  rewrite <- (payload_lookup (Lib.pe_event a2) "id") in Hid by done.
  rewrite <- (payload_lookup _ "updatedAt") in Ht1 by done.
  rewrite <- (payload_lookup _ "updatedAt") in Ht2 by done.
  pose proof (Lib_processEvent_step a2 w) as Hs2. rewrite Hrun2 in Hs2.
  destruct Hs2 as [_ Hs2].
  pose proof (step_rel_updated _ _ _ _ Hs2 Hty2 Hnew) as Hu2.
  pose proof (step_rel_wf _ _ _ _ _ Hs2 Hwf) as Hwf2.
  split.
  - intros w21 Hrun. pose proof (Lib_processEvent_step a1 w2) as Hs. rewrite Hrun in Hs.
    destruct Hs as [_ Hs].
    destruct (events_of (ev_id (Lib.pe_event a1)) (store w2)) eqn:E.
    + rewrite (step_rel_updated _ _ _ _ Hs Hty1 E), Hu2.
      eapply updated_older_after_newer; eauto; apply Hwf.
    + eapply step_rel_known_users; [exact Hs|]. by rewrite E.
  - intros w1 w12 Hdom Hrun1 Hrun12.
    pose proof (Lib_processEvent_step a1 w) as Hs1. rewrite Hrun1 in Hs1.
    destruct Hs1 as [_ Hs1].
    pose proof (Lib_processEvent_step a2 w1) as Hs12. rewrite Hrun12 in Hs12.
    destruct Hs12 as [_ Hs12].
    assert (events_of (ev_id (Lib.pe_event a2)) (store w1) = []) as Hnew1.
    { apply step_rel_events in Hs1 as [[-> _]|(_ & Hev & _)]; [done|].
      unfold events_of in *. rewrite Hev, filter_app, Hnew. simpl.
      by rewrite filter_cons_False. }
    rewrite (step_rel_updated _ _ _ _ Hs12 Hty2 Hnew1), Hu2.
    destruct (events_of (ev_id (Lib.pe_event a1)) (store w)) eqn:E.
    + rewrite (step_rel_updated _ _ _ _ Hs1 Hty1 E).
      eapply updated_newer_after_older; eauto; apply Hwf.
    + f_equal. eapply step_rel_known_users; [exact Hs1|]. by rewrite E.
Qed.

Lemma wf_Example_world1 : @wf Example.host (store Example.world1).
Proof. apply apply_event_wf. by split; simpl; try constructor. Qed.

Lemma updated_last_writer_wins_witness :
  let a1 := Example.args Example.e_upd2 in
  let a2 := Example.args Example.e_upd3 in
  let w := Example.world1 in
  let w2 := @apply_event Example.host a2 w in
  users (store (@apply_event Example.host a1 w2)) = users (store w2) ∧
  users (store (@apply_event Example.host a2 (@apply_event Example.host a1 w)))
    = users (store w2).
Proof.
  intros a1 a2 w w2.
  unshelve epose proof (@updated_last_writer_wins Example.host a1 a2 "3" "4" w w2
                          _ _ _ _ _ _ _ _ _ _) as P.
  - exact wf_Example_world1.
  - reflexivity.
  - reflexivity.
  - vm_compute. reflexivity.
  - vm_compute. reflexivity.
  - vm_compute. reflexivity.
  - vm_compute. reflexivity.
  - discriminate.
  - vm_compute. reflexivity.
  - apply returned_Ok. vm_compute. reflexivity.
  - destruct P as [P1 P2]. split.
    + apply (P1 (@apply_event Example.host a1 w2)).
      apply returned_Ok. vm_compute. reflexivity.
    + apply (P2 (@apply_event Example.host a1 w)
                (@apply_event Example.host a2 (@apply_event Example.host a1 w))).
      * apply (bool_decide_unpack _). vm_compute. exact I.
      * apply returned_Ok. vm_compute. reflexivity.
      * apply returned_Ok. vm_compute. reflexivity.
Defined.

(** C2 as stated fails: the user [user_01] exists with [updatedAt = "1"];
    [e1] has [updatedAt = "2"] and a [firstName], [e2] has [updatedAt = "3"]
    and no [firstName]. After [e1] then [e2] the user has the [firstName] of
    [e1]; after [e2] alone it has none. *)
Lemma updated_last_writer_wins_counterexample :
  let a1 := Example.args Example.e_upd_ann in
  let a2 := Example.args Example.e_upd2 in
  let w := Example.world1 in
  ∃ w1 w12 w2,
    wf (store w) ∧
    @Lib.processEvent Example.host a1 w = Ok tt w1 ∧
    @Lib.processEvent Example.host a2 w1 = Ok tt w12 ∧
    @Lib.processEvent Example.host a2 w = Ok tt w2 ∧
    (λ u : Doc Data, row u !! "id") <$> users (store w) = [Some "user_01"] ∧
    ev_data Example.e_upd_ann !! "id" = Some "user_01" ∧
    ev_data Example.e_upd2 !! "id" = Some "user_01" ∧
    ev_data Example.e_upd_ann !! "updatedAt" = Some "2" ∧
    ev_data Example.e_upd2 !! "updatedAt" = Some "3" ∧
    String.ltb "2" "3" = true ∧
    (λ u : Doc Data, row u !! "firstName") <$> users (store w12) = [Some "Ann"] ∧
    (λ u : Doc Data, row u !! "firstName") <$> users (store w2) = [None] ∧
    users (store w12) ≠ users (store w2).
Proof.
  intros a1 a2 w.
  exists (@apply_event Example.host a1 w),
         (@apply_event Example.host a2 (@apply_event Example.host a1 w)),
         (@apply_event Example.host a2 w).
  split; [exact wf_Example_world1|].
  repeat (split; [by (apply returned_Ok; vm_compute) || by vm_compute|]).
  intros Heq.
  assert ((λ u : Doc Data, row u !! "firstName") <$>
            users (store (@apply_event Example.host a2 (@apply_event Example.host a1 w)))
          = [None]) as Hn
    by (rewrite Heq; by vm_compute).
  vm_compute in Hn. discriminate Hn.
Qed.

(** ** The stored [updatedAt] of a user record does not decrease *)

Section Invariant.
Context `{Host}.

(** The user record a step writes carries the [updatedAt] of the event. *)
Lemma step_rel_written create handle e (s s' : Store) d' t :
  step_rel create handle e s s' → d' ∈ users s' → d' ∉ users s →
  ev_data e !! "updatedAt" = Some t → row d' !! "updatedAt" = Some t.
Proof.
  intros Hs Hd' Hnew Ht. rewrite <- (payload_lookup _ "updatedAt") in Ht by done.
  destruct Hs as [d E|s1 s2 E Hm Hn]; [done|].
  apply notify_rel_frame in Hn as (_ & Hn & _). rewrite Hn in Hd'. clear Hn.
  destruct Hm; simpl in *; try done.
  - apply elem_of_app in Hd' as [?| ->%list_elem_of_singleton]; done.
  - apply elem_of_app in Hd' as [?| ->%list_elem_of_singleton]; done.
  - apply list_elem_of_fmap in Hd' as (x & -> & Hx). unfold patch_doc in *.
    case_decide; [|done]. simpl. rewrite lookup_union, Ht.
    by destruct (row x !! "updatedAt").
  - by apply list_elem_of_filter in Hd' as [_ ?].
Qed.

(** A user record after a step is new, with a stamp of the clock, or it is
    a record of before the step, and then its [updatedAt] has not decreased. *)
Lemma step_rel_user create handle e (s s' : Store) d' :
  wf s → step_rel create handle e s s' → d' ∈ users s' →
  clock s ≤ _id d' ∨
  ∃ d, d ∈ users s ∧ _id d = _id d' ∧
       ∀ x, row d !! "updatedAt" = Some x →
            ∃ y, row d' !! "updatedAt" = Some y ∧ String.ltb y x = false.
Proof.
  intros Hwf Hs Hd'.
  assert (∀ d, d ∈ users s →
    ∃ d0, d0 ∈ users s ∧ _id d0 = _id d ∧
       ∀ x, row d0 !! "updatedAt" = Some x →
            ∃ y, row d !! "updatedAt" = Some y ∧ String.ltb y x = false) as Hsame.
  { intros d Hd. exists d. repeat split; [done|]. intros x Hx. exists x.
    split; [done|]. apply string_ltb_irrefl. }
  destruct Hs as [d E|s1 s2 E Hm Hn]; [right; eauto|].
  apply notify_rel_frame in Hn as (_ & Hn & _). rewrite Hn in Hd'. clear Hn.
  destruct Hm as [Ht Hu|u Ht Hu|Ht Hu Hc|Ht Hu Hc|u Ht Hu Hj|u Ht Hu Hj|u Ht Hu|Ht Hu|Ht];
    simpl in *; eauto.
  - apply elem_of_app in Hd' as [?| ->%list_elem_of_singleton]; [eauto|].
    left. simpl. lia.
  - apply elem_of_app in Hd' as [?| ->%list_elem_of_singleton]; [eauto|].
    left. simpl. lia.
  - right. apply list_elem_of_fmap in Hd' as (x & -> & Hx).
    unfold patch_doc. case_decide as Hi; [|eauto].
    exists x. repeat split; [done|]. simpl. intros t Hx'.
    apply filter_singleton_elem in Hu as [Hu _]. simpl in Hu.
    assert (x = u) as -> by (eapply (unique_match _id); eauto; apply Hwf).
    rewrite Hx' in Hj. rewrite lookup_union.
    destruct (payload e !! "updatedAt") as [y|] eqn:Hy; rewrite Hx'; simpl.
    + exists y. split; [done|]. unfold js_ge in Hj. apply negb_false_iff in Hj.
      by apply string_ltb_asym.
    + exists t. split; [done|]. apply string_ltb_irrefl.
  - apply list_elem_of_filter in Hd' as [_ ?]. eauto.
Qed.

Lemma step_rel_at_least create handle e i t (s s' : Store) :
  step_rel create handle e s s' → at_least i t s → at_least i t s'.
Proof.
  intros Hs (Hwf & Hi & Hle). split; [by eapply step_rel_wf|].
  split; [apply step_rel_frame in Hs as (_ & _ & ?); lia|].
  intros d' Hd' Hid.
  destruct (step_rel_user _ _ _ _ _ d' Hwf Hs Hd') as [?|(d & Hd & Hid' & Hmono)]; [lia|].
  destruct (Hle d Hd) as (y & Hy & Hyt); [congruence|].
  destruct (Hmono y Hy) as (y' & Hy' & Hyy). exists y'. split; [done|].
  eauto using string_ge_trans.
Qed.

Lemma apply_events_at_least (l : list Lib.processEvent_args) i t (w : World) :
  at_least i t (store w) → at_least i t (store (apply_events l w)).
Proof.
  revert w. induction l as [|a l IH]; intros w Hw; [done|].
  simpl. apply IH. destruct (apply_step a w) as [->|Hs]; [done|].
  eapply step_rel_at_least; eauto.
Qed.

End Invariant.

(** C5, as amended. On a well-formed store: a [user.updated] event whose
    [updatedAt] is at most the stored one is discarded, the table [users]
    stays as it is; and over any sequence of applications, a user record
    carries an [updatedAt] that is at least the [updatedAt] of every event
    that has been applied to this record (inserted it or patched it) since
    it was inserted. *)
Theorem updatedAt_invariant `{Host} (w : World) :
  wf (store w) →
  (∀ args u s t,
     ev_event (Lib.pe_event args) = "user.updated" →
     users_of (payload (Lib.pe_event args)) (store w) = [u] →
     row u !! "updatedAt" = Some s →
     ev_data (Lib.pe_event args) !! "updatedAt" = Some t →
     String.ltb s t = false →
     users (store (apply_event args w)) = users (store w)) ∧
  (∀ l1 args l2 d2 d3 t s,
     let w1 := apply_events l1 w in
     let w2 := apply_event args w1 in
     let w3 := apply_events l2 w2 in
     d2 ∈ users (store w2) → d2 ∉ users (store w1) →
     ev_data (Lib.pe_event args) !! "updatedAt" = Some t →
     d3 ∈ users (store w3) → _id d3 = _id d2 →
     row d3 !! "updatedAt" = Some s →
     String.ltb s t = false).
Proof.
  intros Hwf. split.
  - intros args u s t Hty Hu Hs Ht Hle.
    destruct (apply_step args w) as [->|Hstep]; [done|].
    destruct (events_of (ev_id (Lib.pe_event args)) (store w)) eqn:E.
    + rewrite (step_rel_updated _ _ _ _ Hstep Hty E). unfold updated_users.
      fold (users_of (payload (Lib.pe_event args)) (store w)). rewrite Hu, Hs.
      rewrite payload_lookup, Ht by done. simpl. by rewrite Hle.
    + eapply step_rel_known_users; [exact Hstep|]. by rewrite E.
  - intros l1 args l2 d2 d3 t s w1 w2 w3 Hd2 Hnew Ht Hd3 Hid Hs.
    assert (wf (store w1)) as Hwf1 by by apply apply_events_wf.
    destruct (apply_step args w1) as [Heq|Hstep].
    { exfalso. apply Hnew. fold w2 in Heq. by rewrite <- Heq. }
    fold w2 in Hstep.
    assert (at_least (_id d2) t (store w2)) as Hat.
    { split; [by eapply step_rel_wf|]. split.
      - pose proof (step_rel_wf _ _ _ _ _ Hstep Hwf1) as Hwf2.
        pose proof (wf_users_clock _ Hwf2) as Hc. rewrite Forall_forall in Hc. auto.
      - intros d Hd Hdid. exists t. split; [|apply string_ltb_irrefl].
        assert (d = d2) as ->.
        { eapply (unique_match _id); eauto.
          apply (wf_users_id _ (step_rel_wf _ _ _ _ _ Hstep Hwf1)). }
        eapply step_rel_written; eauto. }
    apply (apply_events_at_least l2) in Hat. fold w3 in Hat.
    destruct Hat as (_ & _ & Hat). destruct (Hat d3 Hd3 Hid) as (y & Hy & Hyt).
    congruence.
Qed.

Lemma updatedAt_invariant_witness :
  let w := Example.world1 in
  let w2 := @apply_event Example.host (Example.args Example.e_upd2) w in
  let w3 := @apply_events Example.host [Example.args Example.e_upd3] w2 in
  users (store (@apply_event Example.host (Example.args Example.e_stale) w)) = users (store w) ∧
  String.ltb "4" "3" = false.
Proof.
  intros w w2 w3.
  destruct (@updatedAt_invariant Example.host w wf_Example_world1) as [PA PB].
  split.
  - apply (PA (Example.args Example.e_stale) (Example.nth_user 0 w) "1" "0").
    + reflexivity.
    + vm_compute. reflexivity.
    + vm_compute. reflexivity.
    + vm_compute. reflexivity.
    + vm_compute. reflexivity.
  - apply (PB [] (Example.args Example.e_upd2) [Example.args Example.e_upd3]
             (Example.nth_user 0 w2) (Example.nth_user 0 w3) "3" "4").
    + apply (bool_decide_unpack _). vm_compute. exact I.
    + apply (bool_decide_unpack _). vm_compute. exact I.
    + vm_compute. reflexivity.
    + apply (bool_decide_unpack _). vm_compute. exact I.
    + vm_compute. reflexivity.
    + vm_compute. reflexivity.
Defined.

(** C5 as stated fails for the events applied to a user id before the
    user was deleted: [user_01] is created with [updatedAt = "5"], deleted,
    and created again with [updatedAt = "1"]; the stored [updatedAt] is then
    ["1"], below the ["5"] of an event that has been applied to that id. *)
Lemma updatedAt_invariant_counterexample :
  let w1 := Example.world in
  let w2 := @apply_event Example.host (Example.args Example.e_created5) w1 in
  let w3 := @apply_events Example.host
              [Example.args Example.e_deleted; Example.args Example.e_created] w2 in
  ∃ d2 d3,
    d2 ∈ users (store w2) ∧ (d2 ∉ users (store w1)) ∧
    ev_event Example.e_created5 = "user.created" ∧
    ev_data Example.e_created5 !! "updatedAt" = Some "5" ∧
    row d2 !! "id" = Some "user_01" ∧
    d3 ∈ users (store w3) ∧
    row d3 !! "id" = Some "user_01" ∧
    row d3 !! "updatedAt" = Some "1" ∧
    String.ltb "1" "5" = true.
Proof.
  intros w1 w2 w3. exists (Example.nth_user 0 w2), (Example.nth_user 0 w3).
  repeat split; try (vm_compute; reflexivity);
    apply (bool_decide_unpack _); vm_compute; exact I.
Qed.

(** ** Updates for a missing user, and the range of the first run *)

Section Missing.
Context `{Host}.

Lemma notify_step_ok handle e (w : World) :
  handle_ok handle e (store w) →
  ∃ w', notify_step handle e w = Ok tt w' ∧ console w' = console w ∧
        notify_rel handle e (store w) (store w').
Proof.
  intros Hok. pose proof (notify_step_spec handle e w) as Hs.
  unfold notify_step, when, runHandleMutation in *. destruct handle as [h|]; simpl in *.
  - destruct (negb (String.eqb h "")) eqn:Hh; simpl in *.
    + destruct (Hok h eq_refl Hh) as [a Ha]. rewrite Ha in *.
      eexists. split; [done|]. split; [done|]. apply Hs.
    + eexists. split; [done|]. split; [done|]. apply Hs.
  - eexists. split; [done|]. split; [done|]. apply Hs.
Qed.


End Missing.



Section Puller.
Context `{Host}.


Lemma for_of_keeps_requests {A} (body : A → M unit) (l : list A) (w : World) :
  (∀ x w, keeps_requests w (body x w)) → keeps_requests w (for_of l body w).
Proof.
  intros Hbody. revert w. induction l as [|x l IH]; intros w; [done|].
  simpl. unfold mbind, M_bind. pose proof (Hbody x w) as Hx.
  destruct (body x w) as [[] w1|w1|w1]; simpl in *; [|done..].
  pose proof (IH w1) as Hl. unfold keeps_requests in *.
  destruct (for_of l body w1); congruence.
Qed.


Lemma Lib_processEvent_keeps_requests (args : Lib.processEvent_args) (w : World) :
  keeps_requests w (Lib.processEvent args w).
Proof.
  pose proof (Lib_processEvent_step args w) as Hs. unfold keeps_requests.
  destruct (Lib.processEvent args w); tauto.
Qed.

(** The puller of [src/component/lib.ts] sends no range start at all. *)
Lemma Lib_updateEvents_pages_requests (fuel : nat) (args : Lib.updateEvents_args)
    (eventTypes : list string) (nextCursor : option string) (w : World) :
  ∃ rest,
    requests (world_of (Lib.updateEvents_pages (S fuel) args eventTypes nextCursor w))
    = requests w ++ mkRequest eventTypes nextCursor None :: rest ∧
    Forall (λ r, req_rangeStart r = None) rest.
Proof.
  revert nextCursor w. induction fuel as [|fuel IH]; intros nextCursor w.
  - simpl. unfold mbind, M_bind, workos_listEvents. simpl.
    match goal with |- context [for_of ?l ?body ?w1] =>
      pose proof (for_of_keeps_requests body l w1
                    (λ x w, Lib_processEvent_keeps_requests _ w)) as Hk;
      destruct (for_of l body w1) as [[] w2|w2|w2]; simpl in *; try done end.
    + exists []. split; [|done].
      destruct (truthy _); simpl; congruence.
    + exists []. split; [congruence|done].
  - change (Lib.updateEvents_pages (S (S fuel)) args eventTypes nextCursor w)
      with ((page ← workos_listEvents (Lib.ue_apiKey args)
                       (mkRequest eventTypes nextCursor None);
             for_of (data page) (λ event, Lib.processEvent {|
               Lib.pe_event := event;
               Lib.pe_logLevel := Lib.ue_logLevel args;
               Lib.pe_onEventHandle := Lib.ue_onEventHandle args;
             |});;
             if truthy (listMetadata_after page)
             then Lib.updateEvents_pages (S fuel) args eventTypes (listMetadata_after page)
             else mret tt) w).
    unfold mbind, M_bind, workos_listEvents. simpl.
    match goal with |- context [for_of ?l ?body ?w1] =>
      pose proof (for_of_keeps_requests body l w1
                    (λ x w, Lib_processEvent_keeps_requests _ w)) as Hk;
      destruct (for_of l body w1) as [[] w2|w2|w2]; simpl in *; try done end.
    + destruct (truthy _); simpl.
      * destruct (IH (listMetadata_after
                        (listEvents (Lib.ue_apiKey args)
                           (mkRequest eventTypes nextCursor None))) w2)
          as (rest & -> & Hrest).
        rewrite Hk, <- app_assoc. simpl. eexists. split; [done|].
        by constructor.
      * exists []. split; [congruence|done].
    + exists []. split; [congruence|done].
Qed.

End Puller.






(** ** The reconciler and its Checkpoint *)

Section Reconciler.
Context `{Host}.

Lemma grows_refl (s : Store) : grows s s.
Proof. exists []. rewrite app_nil_r. repeat split; [constructor|lia]. Qed.

Lemma grows_trans (s1 s2 s3 : Store) : grows s1 s2 → grows s2 s3 → grows s1 s3.
Proof.
  intros (n1 & E1 & F1 & C1) (n2 & E2 & F2 & C2). exists (n1 ++ n2).
  rewrite E2, E1, app_assoc. repeat split; [|lia].
  apply Forall_app. split; [done|].
  eapply Forall_impl; [exact F2|]. simpl. intros; lia.
Qed.

Lemma step_rel_grows create handle e (s s' : Store) :
  step_rel create handle e s s' → grows s s'.
Proof.
  intros Hs. apply step_rel_events in Hs as [[-> _]|(_ & Hev & Hc)]; [apply grows_refl|].
  exists [stamp s (event_row e)]. repeat split; [done| |lia].
  repeat constructor.
Qed.




(** An event of a page that [getMissingEventIds] does not report is in the
    table [events]. *)
Lemma missing_skipped (ids : list string) (t : nat) (s : Store) (i : string) :
  i ∈ ids →
  i ∉ (list_to_set (filter (λ id : string,
         id ∉ (list_to_set (eventId ∘ row <$>
                 filter (λ d : Doc EventRow, t < _creationTime d) (events s))
               : gset string)) ids) : gset string) →
  events_of i s ≠ [].
Proof.
  intros Hi Hmiss Hnone.
  apply Hmiss. apply elem_of_list_to_set. apply list_elem_of_filter. split; [|done].
  rewrite elem_of_list_to_set. intros Hin.
  apply list_elem_of_fmap in Hin as (d & Hd & Hin).
  apply list_elem_of_filter in Hin as [_ Hin].
  eapply (filter_nil_not_elem_of _ _ d); [exact Hnone| |exact Hin]. done.
Qed.

Lemma when_console_log (b : bool) (l : list LogArg) (w : World) :
  ∃ c, when b (console_log l) w = Ok tt (mkWorld (store w) c (requests w)).
Proof.
  unfold when, console_log, console_at. destruct b; [by eexists|].
  exists (console w). by destruct w.
Qed.

Lemma counted_skip (r : Lib.backfillEvents_result) (obs : list Event) (e : Event) :
  counted r obs →
  counted {| Lib.processed := Lib.processed r; Lib.skipped := S (Lib.skipped r);
             Lib.lastEventId := Some (ev_id e) |} (obs ++ [e]).
Proof.
  intros [Hl Hc]. split; simpl.
  - rewrite fmap_app. simpl. by rewrite last_snoc.
  - rewrite length_app. simpl. lia.
Qed.

Lemma counted_process (r : Lib.backfillEvents_result) (obs : list Event) (e : Event) :
  counted r obs →
  counted {| Lib.processed := S (Lib.processed r); Lib.skipped := Lib.skipped r;
             Lib.lastEventId := Some (ev_id e) |} (obs ++ [e]).
Proof.
  intros [Hl Hc]. split; simpl.
  - rewrite fmap_app. simpl. by rewrite last_snoc.
  - rewrite length_app. simpl. lia.
Qed.

Lemma ran_nil (r : Lib.backfillEvents_result) (w w' : World) :
  store w' = store w → ran r r [] w w'.
Proof.
  intros Hs. split; rewrite ?Hs; try done.
  - apply grows_refl.
  - intros obs. by rewrite app_nil_r.
Qed.

Lemma ran_trans r1 r2 r3 l1 l2 (w1 w2 w3 : World) :
  ran r1 r2 l1 w1 w2 → ran r2 r3 l2 w2 w3 → ran r1 r3 (l1 ++ l2) w1 w3.
Proof.
  intros [S1 G1 W1 C1 R1 I1] [S2 G2 W2 C2 R2 I2]. split.
  - congruence.
  - eauto using grows_trans.
  - auto.
  - intros obs Hc. rewrite app_assoc. auto.
  - auto.
  - intros [-> ->]%app_eq_nil. destruct (I1 eq_refl) as [E1 E1'].
    destruct (I2 eq_refl) as [E2 E2']. split; congruence.
Qed.

Lemma backfill_events_ran (args : Lib.backfillEvents_args) (missing : gset string)
    (l : list Event) (r r' : Lib.backfillEvents_result) (w w' : World) :
  Lib.backfill_events args missing l r w = Ok r' w' →
  (∀ e, e ∈ l → ev_id e ∉ missing → events_of (ev_id e) (store w) ≠ []) →
  requests w' = requests w ∧ ran r r' l w w'.
Proof.
  revert r w. induction l as [|e l IH]; intros r w Hrun Hskip; simpl in Hrun.
  { injection Hrun as -> ->. split; [done|]. by apply ran_nil. }
  destruct (bool_decide (ev_id e ∈ missing)) eqn:Hm; simpl in Hrun.
  - unfold mbind, M_bind in Hrun.
    match type of Hrun with context [Lib.processEvent ?a w] =>
      pose proof (Lib_processEvent_step a w) as Hs;
      destruct (Lib.processEvent a w) as [[] w1|w1|w1]; try done end.
    simpl in Hs. destruct Hs as [Hr Hs].
    apply IH in Hrun as [Hr' Hran].
    2:{ intros e' He' Hm'. eapply events_of_grows; [exact Hs|]. apply Hskip; [by right|done]. }
    split; [congruence|].
    change (e :: l) with ([e] ++ l). eapply ran_trans; [|exact Hran].
    split.
    + by apply step_rel_frame in Hs as (? & _).
    + by eapply step_rel_grows.
    + by eapply step_rel_wf.
    + intros obs. apply counted_process.
    + intros _ i [= <-]. destruct (events_of_recorded _ _ _ _ _ Hs) as [d ->]. done.
    + done.
  - apply IH in Hrun as [Hr' Hran].
    2:{ intros e' He' Hm'. apply Hskip; [by right|done]. }
    split; [done|].
    change (e :: l) with ([e] ++ l). eapply ran_trans; [|exact Hran].
    split; try done.
    + apply grows_refl.
    + intros obs. apply counted_skip.
    + intros _ i [= <-]. apply Hskip; [by left|]. by apply bool_decide_eq_false in Hm.
Qed.

Lemma backfill_pages_ran (fuel : nat) (args : Lib.backfillEvents_args)
    (eventTypes : list string) (t : nat) (nextCursor : option string)
    (r r' : Lib.backfillEvents_result) (w w' : World) :
  Lib.backfill_pages fuel args eventTypes t nextCursor r w = Ok r' w' →
  ∃ rs, requests w' = requests w ++ rs ∧
        ran r r' (observed (Lib.bf_apiKey args) rs) w w'.
Proof.
  revert nextCursor r w. induction fuel as [|fuel IH]; intros nextCursor r w Hrun; [done|].
  simpl in Hrun. unfold mbind, M_bind, workos_listEvents in Hrun. simpl in Hrun.
  set (req := mkRequest eventTypes nextCursor None) in *.
  set (page := listEvents (Lib.bf_apiKey args) req) in *.
  destruct (bool_decide (List.length (data page) = 0)) eqn:Hlen; simpl in Hrun.
  { injection Hrun as -> <-. exists [req]. split; [done|].
    apply bool_decide_eq_true in Hlen. apply nil_length_inv in Hlen.
    unfold observed. simpl. fold page. rewrite Hlen. by apply ran_nil. }
  match type of Hrun with context [when ?b (console_log ?l) ?w1] =>
    destruct (when_console_log b l w1) as [c Hc]; rewrite Hc in Hrun; clear Hc end.
  simpl in Hrun.
  match type of Hrun with context [Lib.backfill_events args ?m ?l r ?w2] =>
    destruct (Lib.backfill_events args m l r w2) as [r1 w3|w3|w3] eqn:Hev; try done end.
  apply backfill_events_ran in Hev as [Hr Hran].
  2:{ intros e He Hm. eapply missing_skipped; [|exact Hm].
      apply list_elem_of_fmap. eauto. }
  simpl in Hr.
  destruct (negb (truthy (listMetadata_after page))) eqn:Hafter; simpl in Hrun.
  - injection Hrun as -> ->. exists [req]. split; [done|].
    unfold observed. simpl. fold page. rewrite app_nil_r.
    destruct Hran. by split.
  - apply IH in Hrun as (rs & Hrs & Hran').
    exists (req :: rs). split; [rewrite Hrs, Hr; by rewrite <- app_assoc|].
    unfold observed. simpl. fold page. fold (observed (Lib.bf_apiKey args) rs).
    eapply ran_trans; [|exact Hran']. destruct Hran. by split.
Qed.

Lemma getLastCheckpointedEvent_run (w : World) :
  (∃ o, Lib.getLastCheckpointedEvent tt w = Ok o w) ∨
  Lib.getLastCheckpointedEvent tt w = Throw w.
Proof.
  unfold Lib.getLastCheckpointedEvent, internalQuery, gets, unique, throw,
    mbind, M_bind, mret, M_ret. simpl. run_code; eauto.
Qed.

(** [updateLastCheckpointedEventId] sets the Checkpoint and leaves the other
    tables alone. *)
Lemma updateLastCheckpointedEventId_run (l : string) (w w' : World) :
  Lib.updateLastCheckpointedEventId l w = Ok tt w' →
  requests w' = requests w ∧ events (store w') = events (store w) ∧
  users (store w') = users (store w) ∧ clock (store w) ≤ clock (store w') ∧
  checkpoint (store w') = Some l.
Proof.
  unfold Lib.updateLastCheckpointedEventId, internalMutation, mutation, atomically,
    gets, unique, throw, db_patch_syncState_value, db_insert_syncState, modify,
    mbind, M_bind, mret, M_ret, checkpoint. simpl.
  destruct (filter _ (syncState (store w))) as [|d [|d' ds]] eqn:E; simpl; [| |done].
  - intros [= <-]. simpl. repeat split; [lia|].
    by rewrite filter_app, E.
  - destruct (list_find _ _) as [[i x]|]; simpl; [|done]. intros [= <-]. simpl.
    repeat split; [lia|].
    rewrite filter_fmap_stable.
    + rewrite E. simpl. unfold patch_doc. by rewrite decide_True.
    + intros x' _. unfold patch_doc. by case_decide.
Qed.

(** What a run of the reconciler that returns has done. *)
Lemma backfillEvents_run (fuel : nat) (args : Lib.backfillEvents_args)
    (r : Lib.backfillEvents_result) (w w' : World) :
  Lib.backfillEvents fuel args w = Ok r w' →
  ∃ rs, requests w' = requests w ++ rs ∧
    counted r (observed (Lib.bf_apiKey args) rs) ∧
    grows (store w) (store w') ∧
    last_recorded r (store w') ∧
    (truthy (Lib.lastEventId r) = true → checkpoint (store w') = Lib.lastEventId r) ∧
    (truthy (Lib.lastEventId r) = false → syncState (store w') = syncState (store w)) ∧
    (observed (Lib.bf_apiKey args) rs = [] → store w' = store w).
Proof.
  unfold Lib.backfillEvents, internalAction. intros Hrun.
  unfold mbind at 1, M_bind at 1 in Hrun.
  destruct (getLastCheckpointedEvent_run w) as [[o Ho]|Ho]; rewrite Ho in Hrun; [|done].
  set (t := default 0 (Lib.cp_creationTime <$> o)) in *.
  set (first := Lib.cp_eventId <$> o) in *.
  unfold mbind at 1, M_bind at 1 in Hrun.
  match type of Hrun with context [when ?b ?m w] =>
    assert (∃ c, when b m w = Ok tt (mkWorld (store w) c (requests w))) as [c Hc] end.
  { unfold when, console_log, console_at, mbind, M_bind. destruct (bool_decide _); simpl.
    - by eexists.
    - exists (console w). by destruct w. }
  rewrite Hc in Hrun. clear Hc.
  unfold mbind at 1, M_bind at 1 in Hrun.
  match type of Hrun with context [Lib.backfill_pages fuel args ?ty t first ?r0 ?w1] =>
    destruct (Lib.backfill_pages fuel args ty t first r0 w1) as [r1 w2|w2|w2] eqn:Hpages;
      try done end.
  apply backfill_pages_ran in Hpages as (rs & Hrs & Hran). simpl in Hrs.
  destruct Hran as [Hsync Hgrows _ Hcount Hrec Hidle]. simpl in *.
  specialize (Hcount [] (conj eq_refl eq_refl)). simpl in Hcount.
  assert (last_recorded r1 (store w2)) as Hrec1 by (apply Hrec; by intros l).
  unfold mbind at 1, M_bind at 1 in Hrun.
  assert (∀ w3, (when (bool_decide (Lib.bf_logLevel args = Some DEBUG))
            (console_log [LStr ("Backfill complete. Processed: " +:+ pretty (Lib.processed r1)
                        +:+ ", Skipped: " +:+ pretty (Lib.skipped r1)
                        +:+ ", Last event: " +:+ default "null" (Lib.lastEventId r1))]);;
            mret r1) w3 = Ok r w' → r = r1 ∧ store w' = store w3 ∧ requests w' = requests w3)
    as Hend.
  { intros w3. unfold when, console_log, console_at, mbind, M_bind, mret, M_ret.
    destruct (bool_decide _); simpl; by intros [= <- <-]. }
  destruct (Lib.lastEventId r1) as [l|] eqn:Hl.
  - unfold when in Hrun. change (negb (String.eqb l "")) with (truthy (Some l)) in Hrun.
    destruct (truthy (Some l)) eqn:Htruthy.
    + destruct (Lib.updateLastCheckpointedEventId l w2) as [[] w3|w3|w3] eqn:Hup; try done.
      apply updateLastCheckpointedEventId_run in Hup as (Hr3 & He3 & Hu3 & Hc3 & Hcp).
      apply (Hend w3) in Hrun as (-> & Hs' & Hr').
      exists rs. rewrite Hl, Htruthy.
      split; [congruence|]. split; [done|]. split.
      { destruct Hgrows as (new & E & F & C). exists new. rewrite Hs', He3.
        repeat split; [done..|lia]. }
      split.
      { intros i Hi. unfold events_of. rewrite Hs', He3. by apply Hrec1. }
      split; [intros _; by rewrite Hs'|]. split; [done|].
      intros Hobs. rewrite Hobs in Hcount. destruct Hcount as [Hcount _].
      simpl in Hcount. congruence.
    + unfold mret at 1, M_ret at 1 in Hrun. apply (Hend w2) in Hrun as (-> & Hs' & Hr').
      exists rs. rewrite Hl, Htruthy, Hs'.
      split; [congruence|]. split; [done|]. split; [done|]. split; [done|].
      split; [done|]. split; [by intros|]. intros Hobs. by apply Hidle.
  - unfold mret at 1, M_ret at 1 in Hrun. apply (Hend w2) in Hrun as (-> & Hs' & Hr').
    exists rs. rewrite Hl, Hs'. simpl.
    split; [congruence|]. split; [done|]. split; [done|]. split; [done|].
    split; [done|]. split; [by intros|]. intros Hobs. by apply Hidle.
Qed.

End Reconciler.

(** C6, as amended. When a run of [backfillEvents] returns, the returned
    [lastEventId] is the id of the last event the feed has answered in the
    run ([null] when it has answered none) and the counters add up to the
    number of these events; the Checkpoint holds [lastEventId] if and only
    if [lastEventId] is truthy (not [null] and not the empty string), and
    otherwise the table [syncState] is as it was; a run that observes no
    event leaves the whole store as it was. *)
Theorem backfillEvents_checkpoint `{Host} (fuel : nat) (args : Lib.backfillEvents_args)
    (r : Lib.backfillEvents_result) (w w' : World) :
  Lib.backfillEvents fuel args w = Ok r w' →
  let obs := observed (Lib.bf_apiKey args) (sent w w') in
  Lib.lastEventId r = last (ev_id <$> obs) ∧
  Lib.processed r + Lib.skipped r = List.length obs ∧
  (truthy (Lib.lastEventId r) = true → checkpoint (store w') = Lib.lastEventId r) ∧
  (truthy (Lib.lastEventId r) = false → syncState (store w') = syncState (store w)) ∧
  (obs = [] → Lib.lastEventId r = None ∧ store w' = store w).
Proof.
  intros Hrun obs.
  apply backfillEvents_run in Hrun as (rs & Hrs & [Hlast Hcount] & _ & _ & Hset & Hkeep & Hidle).
  assert (sent w w' = rs) as Hsent by (unfold sent; by rewrite Hrs, drop_app_length).
  unfold obs. rewrite Hsent.
  split; [done|]. split; [done|]. split; [done|]. split; [done|].
  intros Hobs. split; [by rewrite Hlast, Hobs|by apply Hidle].
Qed.


Lemma returned_result `{Host} {A} (d : A) (r : Res A) :
  returned r = true → r = Ok (result d r) (world_of r).
Proof. by destruct r. Qed.

Lemma backfillEvents_checkpoint_witness :
  let r := result Example.no_result Example.run_feed in
  let w := emptyWorld [Example.e_created; Example.e_upd2] 1 in
  let w' := world_of Example.run_feed in
  let obs := @observed Example.host_feed "sk_test" (sent w w') in
  Lib.lastEventId r = last (ev_id <$> obs) ∧
  Lib.processed r + Lib.skipped r = List.length obs ∧
  (truthy (Lib.lastEventId r) = true → checkpoint (store w') = Lib.lastEventId r) ∧
  (truthy (Lib.lastEventId r) = false → syncState (store w') = syncState (store w)) ∧
  (obs = [] → Lib.lastEventId r = None ∧ store w' = store w).
Proof.
  apply (@backfillEvents_checkpoint Example.host_feed 5 (Example.bf_args None)
           (result Example.no_result Example.run_feed)
           (emptyWorld [Example.e_created; Example.e_upd2] 1) (world_of Example.run_feed)).
  apply (returned_result Example.no_result Example.run_feed). vm_compute. reflexivity.
Defined.

(** C6 as stated fails for an event whose id is the empty string: the run
    observes one event and returns [lastEventId = ""], which is not [null],
    and the Checkpoint is not set. *)
Lemma backfillEvents_checkpoint_counterexample :
  let r := result Example.no_result Example.run_noid in
  let w := emptyWorld [Example.e_noid] 10 in
  let w' := world_of Example.run_noid in
  returned Example.run_noid = true ∧
  @observed Example.host_noid "sk_test" (sent w w') = [Example.e_noid] ∧
  Lib.lastEventId r = Some "" ∧
  Lib.processed r = 1 ∧
  checkpoint (store w) = None ∧
  checkpoint (store w') = None ∧
  checkpoint (store w') ≠ Lib.lastEventId r.
Proof.
  repeat split; try (vm_compute; reflexivity).
  intros Heq. vm_compute in Heq. discriminate Heq.
Qed.

Lemma wf_emptyWorld (feed : list Event) (n : nat) : @wf (exampleHost feed n) (store (emptyWorld feed n)).
Proof. by split; simpl; try constructor. Qed.



(** ** The webhook trigger *)

Section Provenance.
Context `{Host}.

Lemma from_events_refl (l : list Event) (s : Store) : from_events l s s.
Proof. intros d Hd. by left. Qed.

Lemma from_events_trans (l1 l2 : list Event) (s1 s2 s3 : Store) :
  from_events l1 s1 s2 → from_events l2 s2 s3 → from_events (l1 ++ l2) s1 s3.
Proof.
  intros H1 H2 d Hd. destruct (H2 d Hd) as [Hd2|(e & He & Hrow)].
  - destruct (H1 d Hd2) as [?|(e & He & Hrow)]; [by left|right].
    exists e. split; [|done]. apply elem_of_app. by left.
  - right. exists e. split; [|done]. apply elem_of_app. by right.
Qed.

Lemma apply_event_from (args : Lib.processEvent_args) (w : World) :
  from_events [Lib.pe_event args] (store w) (store (apply_event args w)).
Proof.
  destruct (apply_step args w) as [->|Hs]; [apply from_events_refl|].
  apply step_rel_events in Hs as [[-> _]|(_ & Hev & _)]; [apply from_events_refl|].
  intros d Hd. rewrite Hev in Hd.
  apply elem_of_app in Hd as [?| ->%list_elem_of_singleton]; [by left|right].
  exists (Lib.pe_event args). split; [by left|done].
Qed.

Lemma for_of_processEvent_from (l : list Event) (lvl : option LogLevel)
    (h : option string) (w : World) :
  let w' := world_of (for_of l (λ event, Lib.processEvent {|
              Lib.pe_event := event; Lib.pe_logLevel := lvl; Lib.pe_onEventHandle := h |}) w) in
  requests w' = requests w ∧ from_events l (store w) (store w').
Proof.
  revert w. induction l as [|e l IH]; intros w; simpl.
  { split; [done|apply from_events_refl]. }
  unfold mbind, M_bind.
  set (a := {| Lib.pe_event := e; Lib.pe_logLevel := lvl; Lib.pe_onEventHandle := h |}).
  pose proof (apply_event_from a w) as Hfrom. unfold apply_event in Hfrom.
  pose proof (Lib_processEvent_step a w) as Hs.
  destruct (Lib.processEvent a w) as [[] w1|w1|w1]; simpl in *; [| |done].
  - destruct (IH w1) as [Hr Hf]. split; [by rewrite Hr; apply Hs|].
    change (e :: l) with ([e] ++ l). eapply from_events_trans; eauto.
  - split; [apply Hs|]. destruct Hs as [-> _]. apply from_events_refl.
Qed.

(** The puller records no event but those the feed has answered. *)
Lemma updateEvents_pages_from (fuel : nat) (args : Lib.updateEvents_args)
    (eventTypes : list string) (nextCursor : option string) (w : World) :
  let w' := world_of (Lib.updateEvents_pages fuel args eventTypes nextCursor w) in
  ∃ rs, requests w' = requests w ++ rs ∧
        from_events (observed (Lib.ue_apiKey args) rs) (store w) (store w').
Proof.
  revert nextCursor w. induction fuel as [|fuel IH]; intros nextCursor w; simpl.
  { exists []. rewrite app_nil_r. split; [done|apply from_events_refl]. }
  unfold mbind, M_bind, workos_listEvents. simpl.
  set (req := mkRequest eventTypes nextCursor None).
  set (page := listEvents (Lib.ue_apiKey args) req).
  set (w1 := mkWorld (store w) (console w) (requests w ++ [req])).
  pose proof (for_of_processEvent_from (data page) (Lib.ue_logLevel args)
                (Lib.ue_onEventHandle args) w1) as [Hr Hf].
  destruct (for_of (data page) _ w1) as [[] w2|w2|w2]; simpl in *.
  - destruct (truthy (listMetadata_after page)); simpl.
    + destruct (IH (listMetadata_after page) w2) as (rs & Hrs & Hfrom).
      exists (req :: rs). split; [rewrite Hrs, Hr; by rewrite <- app_assoc|].
      unfold observed. simpl. fold page. fold (observed (Lib.ue_apiKey args) rs).
      eapply from_events_trans; eauto.
    + exists [req]. split; [done|]. unfold observed. simpl. by rewrite app_nil_r.
  - exists [req]. split; [done|]. unfold observed. simpl. by rewrite app_nil_r.
  - exists [req]. split; [done|]. unfold observed. simpl. by rewrite app_nil_r.
Qed.

End Provenance.

(** C9. [enqueueWebhookEvent] does the same whatever [eventId], [event] and
    [updatedAt] it is given: it returns, and the store is the one it started
    from with the pool cancelled and one [updateEvents] enqueued, whose
    arguments are [apiKey], [onEventHandle], [eventTypes] and [logLevel];
    the tables are untouched. The enqueued [updateEvents] in turn records no
    event but those the remote feed has answered to its requests. *)
Theorem enqueueWebhookEvent_ignores_payload `{Host} (apiKey : string)
    (onEventHandle : option string) (eventTypes : option (list string))
    (logLevel : option LogLevel) (w : World) :
  let work := {| Lib.ue_apiKey := apiKey; Lib.ue_onEventHandle := onEventHandle;
                 Lib.ue_eventTypes := eventTypes; Lib.ue_logLevel := logLevel |} in
  (∀ eventId event updatedAt,
     Lib.enqueueWebhookEvent {|
       Lib.ew_apiKey := apiKey; Lib.ew_eventId := eventId; Lib.ew_event := event;
       Lib.ew_updatedAt := updatedAt; Lib.ew_onEventHandle := onEventHandle;
       Lib.ew_eventTypes := eventTypes; Lib.ew_logLevel := logLevel |} w
     = Ok tt (mkWorld
         (set_pool (λ p, enqueueAction _ "lib:updateEvents" work (cancelAll p)) (store w))
         (console w) (requests w))) ∧
  (∀ fuel,
     let w' := world_of (Lib.updateEvents fuel work w) in
     from_events (observed apiKey (sent w w')) (store w) (store w')).
Proof.
  intros work. split; [done|].
  intros fuel. unfold Lib.updateEvents, internalAction, Lib.getCursor, internalQuery,
    gets, mbind, M_bind, mret, M_ret. simpl.
  destruct (updateEvents_pages_from fuel work (Lib.eventTypes_of eventTypes)
              (eventId ∘ row <$> first_desc (events (store w))) w) as (rs & Hrs & Hfrom).
  unfold sent. rewrite Hrs, drop_app_length. exact Hfrom.
Qed.

(** ** Further properties of the applier and of [getAuthUser] *)

Section MoreApplier.
Context `{Host}.

Lemma returned_step (args : Lib.processEvent_args) (w w1 : World) :
  Lib.processEvent args w = Ok tt w1 →
  requests w1 = requests w ∧
  step_rel false (Lib.pe_onEventHandle args) (Lib.pe_event args) (store w) (store w1).
Proof.
  intros Hrun. pose proof (Lib_processEvent_step args w) as Hs. by rewrite Hrun in Hs.
Qed.

Lemma getAuthUser_unfold (id : string) (w : World) :
  Lib.getAuthUser id w =
  match filter (λ d : Doc Data, row d !! "id" = Some id) (users (store w)) with
  | [] => Ok None w
  | [d] => Ok (Some (row d)) w
  | _ => Throw w
  end.
Proof.
  unfold Lib.getAuthUser, query, gets, unique, throw, mbind, M_bind, mret, M_ret. simpl.
  by destruct (filter _ (users (store w))) as [|d [|d' ds]].
Qed.

Lemma getCursor_unfold (w : World) :
  Lib.getCursor tt w = Ok (eventId ∘ row <$> last (events (store w))) w.
Proof. reflexivity. Qed.

(** The step of a new event on the table [users]. *)
Lemma step_rel_new_mirror create handle e (s s' : Store) :
  step_rel create handle e s s' → events_of (ev_id e) s = [] →
  ∃ s1, mirror_rel create e (add_event e s) s1 ∧ users s' = users s1 ∧
        notify_rel handle e s1 s'.
Proof.
  destruct 1 as [d E|s1 s2 E Hm Hn]; intros E'; [congruence|].
  exists s1. split; [done|]. split; [|done].
  by apply notify_rel_frame in Hn as (_ & -> & _).
Qed.

End MoreApplier.

(** X1. Insert and lookup. After [processEvent] has returned for a
    [user.created] event that was not recorded, for an id that no user
    record had, [getAuthUser] of that id returns the event data without its
    field [object] (and without system fields). *)
Theorem created_then_getAuthUser `{Host} (args : Lib.processEvent_args) (id : string)
    (w w1 : World) :
  ev_event (Lib.pe_event args) = "user.created" →
  ev_data (Lib.pe_event args) !! "id" = Some id →
  events_of (ev_id (Lib.pe_event args)) (store w) = [] →
  users_of (payload (Lib.pe_event args)) (store w) = [] →
  Lib.processEvent args w = Ok tt w1 →
  Lib.getAuthUser id w1 = Ok (Some (payload (Lib.pe_event args))) w1 ∧
  payload (Lib.pe_event args) !! "object" = None.
Proof.
  intros Hty Hid Hnew Hmiss Hrun. split; [|apply lookup_delete_eq].
  apply returned_step in Hrun as [_ Hs].
  destruct (step_rel_new_mirror _ _ _ _ _ Hs Hnew) as (s1 & Hm & Hu & _).
  rewrite getAuthUser_unfold, Hu.
  rewrite <- (payload_lookup _ "id") in Hid by done.
  unfold users_of in Hmiss. rewrite Hid in Hmiss.
  inversion Hm; subst; simpl in *; try congruence.
  - rewrite filter_app, Hmiss. simpl. by rewrite filter_cons_True.
  - unfold users_of in *. simpl in *. rewrite Hid in *. congruence.
Qed.

(** X2. Delete and lookup. On a well-formed store, after [processEvent]
    has returned for a [user.deleted] event that was not recorded,
    [getAuthUser] of the id of the event returns [null], whether or not a
    user record was there. *)
Theorem deleted_then_getAuthUser `{Host} (args : Lib.processEvent_args) (id : string)
    (w w1 : World) :
  wf (store w) →
  ev_event (Lib.pe_event args) = "user.deleted" →
  ev_data (Lib.pe_event args) !! "id" = Some id →
  events_of (ev_id (Lib.pe_event args)) (store w) = [] →
  Lib.processEvent args w = Ok tt w1 →
  Lib.getAuthUser id w1 = Ok None w1.
Proof.
  intros Hwf Hty Hid Hnew Hrun.
  apply returned_step in Hrun as [_ Hs].
  destruct (step_rel_new_mirror _ _ _ _ _ Hs Hnew) as (s1 & Hm & Hu & _).
  rewrite getAuthUser_unfold, Hu.
  rewrite <- (payload_lookup _ "id") in Hid by done.
  inversion Hm as [| | | | | |u Ht Hus|Ht Hus|]; subst; simpl in *; try congruence;
    unfold users_of in Hus; simpl in Hus; rewrite Hid in Hus.
  - destruct (filter _ (filter _ (users (store w)))) as [|d ds] eqn:E; [done|].
    exfalso.
    assert (d ∈ filter (λ d : Doc Data, row d !! "id" = Some id)
                  (filter (λ x : Doc Data, _id x ≠ _id u) (users (store w)))) as Hd
      by (rewrite E; left).
    apply list_elem_of_filter in Hd as [Hdid Hd].
    apply list_elem_of_filter in Hd as [Hne Hd].
    apply filter_singleton_elem in Hus as [Hu' Huid].
    apply Hne. f_equal. eapply (unique_match (λ x : Doc Data, row x !! "id")); eauto.
    + apply Hwf.
    + congruence.
  - by rewrite Hus.
Qed.

(** X3. On a well-formed store [getAuthUser] does not throw and changes
    nothing; it returns the row of a user whose field [id] is the one asked
    for, or [null] exactly when no user record carries that id. *)
Theorem getAuthUser_wf `{Host} (id : string) (w : World) :
  wf (store w) →
  ∃ o, Lib.getAuthUser id w = Ok o w ∧
    match o with
    | Some d => d !! "id" = Some id ∧ ∃ u, u ∈ users (store w) ∧ row u = d
    | None => ∀ u, u ∈ users (store w) → row u !! "id" ≠ Some id
    end.
Proof.
  intros Hwf. rewrite getAuthUser_unfold.
  destruct (filter_unique (λ d : Doc Data, row d !! "id") (Some id) (users (store w)))
    as [E|[u E]]; [apply Hwf| |]; rewrite E.
  - exists None. split; [done|]. intros u Hu Hid.
    eapply (filter_nil_not_elem_of _ _ u); [exact E|exact Hid|exact Hu].
  - exists (Some (row u)). split; [done|].
    apply filter_singleton_elem in E as [Hu Hid]. eauto.
Qed.

(** X4. A [user.created] event for an id that a user record already
    carries never overwrites it: whatever the outcome of [processEvent], the
    table [users] is as it was. *)
Theorem created_existing_user_kept `{Host} (args : Lib.processEvent_args) (w : World) :
  ev_event (Lib.pe_event args) = "user.created" →
  users_of (payload (Lib.pe_event args)) (store w) ≠ [] →
  users (store (apply_event args w)) = users (store w).
Proof.
  intros Hty Hex. destruct (apply_step args w) as [->|Hs]; [done|].
  destruct Hs as [d E|s1 s2 E Hm Hn]; [done|].
  apply notify_rel_frame in Hn as (_ & -> & _).
  inversion Hm; subst; simpl; try done; congruence.
Qed.

(** X5. An event of a type other than [user.created], [user.updated] and
    [user.deleted] leaves the table [users] as it was, whatever the outcome;
    when it was not recorded and [processEvent] returns, its record (id,
    type and the [updatedAt] of its data) is the newest document of the
    table [events]. *)
Theorem other_event_types `{Host} (args : Lib.processEvent_args) (w : World) :
  ev_event (Lib.pe_event args) ≠ "user.created" →
  ev_event (Lib.pe_event args) ≠ "user.updated" →
  ev_event (Lib.pe_event args) ≠ "user.deleted" →
  users (store (apply_event args w)) = users (store w) ∧
  (∀ w1, Lib.processEvent args w = Ok tt w1 →
         events_of (ev_id (Lib.pe_event args)) (store w) = [] →
         events (store w1)
         = events (store w) ++
           [mkDoc (clock (store w)) (clock (store w))
              (mkEventRow (ev_id (Lib.pe_event args)) (ev_event (Lib.pe_event args))
                 (ev_data (Lib.pe_event args) !! "updatedAt"))]).
Proof.
  intros H1 H2 H3. split.
  - destruct (apply_step args w) as [->|Hs]; [done|].
    destruct Hs as [d E|s1 s2 E Hm Hn]; [done|].
    apply notify_rel_frame in Hn as (_ & -> & _).
    inversion Hm; subst; simpl; try done; congruence.
  - intros w1 Hrun Hnew. apply returned_step in Hrun as [_ Hs].
    apply step_rel_events in Hs as [[_ [d E]]|(_ & Hev & _)]; [congruence|done].
Qed.

(** X6. When [processEvent] returns for an event that was not recorded:
    if [onEventHandle] is truthy (given and not the empty string) the handle
    has been called exactly once, with the type of the event and its data as
    received ([object] included), on the application state that
    [processEvent] found; otherwise no handle has been called. This holds
    whatever the event did to the table [users]. *)
Theorem handle_called_with_event `{Host} (args : Lib.processEvent_args) (w w1 : World) :
  events_of (ev_id (Lib.pe_event args)) (store w) = [] →
  Lib.processEvent args w = Ok tt w1 →
  if truthy (Lib.pe_onEventHandle args)
  then ∃ h, Lib.pe_onEventHandle args = Some h ∧
         calls (store w1) =
           calls (store w) ++
           [mkHandlerCall (ev_id (Lib.pe_event args)) h (ev_event (Lib.pe_event args))
              (ev_data (Lib.pe_event args))] ∧
         runHandle h (ev_event (Lib.pe_event args)) (ev_data (Lib.pe_event args))
           (app (store w)) = Some (app (store w1))
  else calls (store w1) = calls (store w) ∧ app (store w1) = app (store w).
Proof.
  intros Hnew Hrun. apply returned_step in Hrun as [_ Hs].
  destruct Hs as [d E|s1 s2 E Hm Hn]; [congruence|].
  apply mirror_rel_frame in Hm as (_ & _ & _ & Ha & Hc & _). simpl in *.
  destruct Hn as [Ht|h a Hh Ht Hr]; rewrite Ht.
  - by split.
  - exists h. simpl. rewrite Hc, <- Ha. done.
Qed.

(** X7. When the handle of a not yet recorded event throws,
    [processEvent] throws and its transaction is rolled back: the store is
    as it was, so the event is not recorded. *)
Theorem handle_failure_rolls_back `{Host} (args : Lib.processEvent_args) (h : string)
    (w : World) :
  events_of (ev_id (Lib.pe_event args)) (store w) = [] →
  Lib.pe_onEventHandle args = Some h →
  truthy (Some h) = true →
  runHandle h (ev_event (Lib.pe_event args)) (ev_data (Lib.pe_event args))
    (app (store w)) = None →
  ∃ w', Lib.processEvent args w = Throw w' ∧ store w' = store w ∧
        requests w' = requests w.
Proof.
  intros Hnew Hh Ht Hfail. pose proof (Lib_processEvent_step args w) as Hs.
  destruct (Lib.processEvent args w) as [[] w'|w'|w']; [|by eauto|done].
  exfalso. destruct Hs as [_ Hs].
  destruct Hs as [d E|s1 s2 E Hm Hn]; [congruence|].
  apply mirror_rel_frame in Hm as (_ & _ & _ & Ha & _). simpl in Ha.
  rewrite Hh in Hn. destruct Hn as [Ht'|h' a Hh' _ Hr]; [congruence|].
  injection Hh' as <-. congruence.
Qed.

(** X8. Once [processEvent] has returned for an event that was not
    recorded, [getCursor] returns the id of that event, and the next run of
    [updateEvents] sends its first request with that id as [after] and no
    range start. *)
Theorem getCursor_after_processEvent `{Host} (args : Lib.processEvent_args) (w w1 : World) :
  events_of (ev_id (Lib.pe_event args)) (store w) = [] →
  Lib.processEvent args w = Ok tt w1 →
  Lib.getCursor tt w1 = Ok (Some (ev_id (Lib.pe_event args))) w1 ∧
  ∀ fuel uargs, ∃ rest,
    requests (world_of (Lib.updateEvents (S fuel) uargs w1))
    = requests w1 ++
      mkRequest (Lib.eventTypes_of (Lib.ue_eventTypes uargs))
        (Some (ev_id (Lib.pe_event args))) None :: rest.
Proof.
  intros Hnew Hrun. apply returned_step in Hrun as [_ Hs].
  apply step_rel_events in Hs as [[_ [d E]]|(_ & Hev & _)]; [congruence|].
  assert (Lib.getCursor tt w1 = Ok (Some (ev_id (Lib.pe_event args))) w1) as Hc.
  { rewrite getCursor_unfold, Hev, last_snoc. done. }
  split; [done|]. intros fuel uargs.
  unfold Lib.updateEvents, internalAction. unfold mbind at 1, M_bind at 1. rewrite Hc.
  destruct (Lib_updateEvents_pages_requests fuel uargs
              (Lib.eventTypes_of (Lib.ue_eventTypes uargs))
              (Some (ev_id (Lib.pe_event args))) w1) as (rest & Hr & _).
  eauto.
Qed.

Section Returns.
Context `{Host}.

Lemma mirror_step_returns (create : bool) (e : Event) (w : World) :
  wf (store w) →
  (ev_event e = "user.created" ∨ create = true → usersValidator (payload e) = true) →
  (ev_event e = "user.updated" →
   ∀ u, u ∈ users (store w) → usersValidator (payload e ∪ row u) = true) →
  ∃ w', mirror_step create e w = Ok tt w'.
Proof.
  intros Hwf Hc Hp.
  destruct (filter_unique (λ d : Doc Data, row d !! "id") (payload e !! "id")
              (users (store w))) as [E|[u E]]; [apply Hwf| |].
  - unfold mirror_step.
    repeat case_decide; munfold; simpl; change (delete "object" (ev_data e)) with (payload e);
      rewrite ?E; simpl; eauto.
    + rewrite Hc by auto. eauto.
    + destruct create; simpl; eauto. rewrite Hc by auto. eauto.
  - pose proof E as [Hu Hid]%filter_singleton_elem.
    assert (is_Some (list_find (λ d : Doc Data, _id d = _id u) (users (store w)))) as [[i x] Hf].
    { eapply list_find_elem_of; eauto. }
    unfold mirror_step.
    repeat case_decide; munfold; simpl; change (delete "object" (ev_data e)) with (payload e);
      rewrite ?E; simpl; eauto.
    + destruct (js_ge _ _); simpl; eauto. rewrite Hf. simpl.
      apply list_find_Some in Hf as (Hx & Hxid & _).
      rewrite Hp by eauto using list_elem_of_lookup_2. eauto.
    + rewrite Hf. simpl. eauto.
Qed.

Lemma mirror_step_Ok create e (w w' : World) :
  mirror_step create e w = Ok tt w' → mirror_rel create e (store w) (store w').
Proof.
  intros Hrun. pose proof (mirror_step_spec create e w) as Hs. rewrite Hrun in Hs. tauto.
Qed.

Lemma dedup_step_returns l (create : bool) handle e (w : World) :
  wf (store w) →
  handle_ok handle e (store w) →
  (ev_event e = "user.created" ∨ create = true → usersValidator (payload e) = true) →
  (ev_event e = "user.updated" →
   ∀ u, u ∈ users (store w) → usersValidator (payload e ∪ row u) = true) →
  ∃ w', atomically (dedup_step l create handle e) w = Ok tt w'.
Proof.
  intros Hwf Hok Hc Hp.
  destruct (filter_unique (λ d : Doc EventRow, eventId (row d)) (ev_id e)
              (events (store w))) as [E|[d E]]; [apply Hwf| |].
  2:{ destruct (dedup_step_known l create handle e d w E) as [c Hc']. eauto. }
  unfold atomically, dedup_step, new_event_step, mbind, M_bind.
  assert (∃ c, (when (bool_decide (l = Some DEBUG))
                  (console_log [LStr "processing event"; LEvent e])) w
               = Ok tt (mkWorld (store w) c (requests w))) as [c ->]
    by apply when_console_log.
  simpl. unfold gets, unique, mret, M_ret. simpl. rewrite E. simpl.
  unfold db_insert_events, modify. simpl.
  match goal with |- context [mirror_step create e ?w1] =>
    destruct (mirror_step_returns create e w1) as [w2 Hm]; [by apply wf_add_event|done|done|];
    rewrite Hm; apply mirror_step_Ok in Hm end.
  apply mirror_rel_frame in Hm as (_ & _ & _ & Ha & _). simpl in Ha.
  destruct (notify_step_ok handle e w2) as (w3 & -> & _); [|eauto].
  unfold handle_ok in *. by rewrite Ha.
Qed.

End Returns.

(** X9. On a well-formed store [processEvent] returns, and leaves the
    store well formed, when the handle (if there is one to call) does not
    throw, the data of a [user.created] event is of the type of the table
    [users], and for a [user.updated] event the data merged into a user
    record is of that type: the lookups by event id and by user id never
    throw, and the patched or deleted document is always there. *)
Theorem processEvent_returns `{Host} (args : Lib.processEvent_args) (w : World) :
  wf (store w) →
  handle_ok (Lib.pe_onEventHandle args) (Lib.pe_event args) (store w) →
  (ev_event (Lib.pe_event args) = "user.created" →
   usersValidator (payload (Lib.pe_event args)) = true) →
  (ev_event (Lib.pe_event args) = "user.updated" →
   ∀ u, u ∈ users (store w) → usersValidator (payload (Lib.pe_event args) ∪ row u) = true) →
  ∃ w', Lib.processEvent args w = Ok tt w' ∧ wf (store w').
Proof.
  intros Hwf Hok Hc Hp. rewrite Lib_processEvent_unfold.
  destruct (dedup_step_returns (Lib.pe_logLevel args) false (Lib.pe_onEventHandle args)
              (Lib.pe_event args) w) as [w' Hrun]; try done.
  { intros [?|?]; [auto|done]. }
  exists w'. split; [done|].
  pose proof (dedup_step_spec (Lib.pe_logLevel args) false (Lib.pe_onEventHandle args)
                (Lib.pe_event args) w) as Hs.
  rewrite Hrun in Hs. destruct Hs as [_ Hs]. eapply step_rel_wf; eauto.
Qed.

Section Others.
Context `{Host}.

Lemma filter_users_of_one (k : option string) (u : Doc Data) (s : Store) :
  wf s → u ∈ users s → row u !! "id" = k →
  filter (λ x : Doc Data, row x !! "id" = k) (users s) = [u].
Proof.
  intros Hwf Hu Hid.
  destruct (filter_unique (λ d : Doc Data, row d !! "id") k (users s)) as [E|[u' E]];
    [apply Hwf| |].
  - exfalso. eapply (filter_nil_not_elem_of _ _ u); [exact E|exact Hid|exact Hu].
  - rewrite E. f_equal. apply filter_singleton_elem in E as [Hu' Hid'].
    eapply (unique_match (λ d : Doc Data, row d !! "id")); eauto; [apply Hwf|congruence].
Qed.




End Others.


(** X11. Update and lookup. On a well-formed store with a user record [u]
    of the id of a not yet recorded [user.updated] event, after
    [processEvent] has returned [getAuthUser] of that id returns the row of
    [u] unchanged when its [updatedAt] is at least the one of the event, and
    otherwise the fields of the event data (without [object]) merged over
    the row of [u]. *)
Theorem updated_then_getAuthUser `{Host} (args : Lib.processEvent_args) (id : string)
    (u : Doc Data) (w w1 : World) :
  wf (store w) →
  ev_event (Lib.pe_event args) = "user.updated" →
  ev_data (Lib.pe_event args) !! "id" = Some id →
  events_of (ev_id (Lib.pe_event args)) (store w) = [] →
  u ∈ users (store w) → row u !! "id" = Some id →
  Lib.processEvent args w = Ok tt w1 →
  Lib.getAuthUser id w1
  = Ok (Some (if js_ge (row u !! "updatedAt") (ev_data (Lib.pe_event args) !! "updatedAt")
              then row u
              else payload (Lib.pe_event args) ∪ row u)) w1.
Proof.
  intros Hwf Hty Hid Hnew Hu Huid Hrun.
  apply returned_step in Hrun as [_ Hs].
  pose proof (step_rel_updated _ _ _ _ Hs Hty Hnew) as Hus.
  rewrite <- (payload_lookup _ "id") in Hid by done.
  rewrite <- (payload_lookup _ "updatedAt") by done.
  rewrite getAuthUser_unfold, Hus. unfold updated_users.
  rewrite Hid, (filter_users_of_one (Some id) u) by done.
  destruct (js_ge _ _).
  - by rewrite (filter_users_of_one (Some id) u).
  - rewrite filter_fmap_stable.
    + rewrite (filter_users_of_one (Some id) u) by done. simpl.
      unfold patch_doc. by rewrite decide_True.
    + intros x Hx. unfold patch_doc. case_decide as Hi; [|done]. simpl.
      assert (x = u) as -> by (eapply (unique_match _id); eauto; apply Hwf).
      rewrite union_lookup_same by congruence. done.
Qed.

Section LogLevel.
Context `{Host}.

Lemma new_event_step_console create handle e (s : Store) (c c' : list LogLine)
    (rs : list Request) :
  same_but_console (new_event_step create handle e (mkWorld s c rs))
                   (new_event_step create handle e (mkWorld s c' rs)).
Proof.
  unfold new_event_step, mirror_step, notify_step, same_but_console.
  munfold. simpl.
  repeat case_decide; simpl; run_code.
Qed.

Lemma dedup_step_console (l l' : option LogLevel) create handle e (w : World) :
  same_but_console (atomically (dedup_step l create handle e) w)
                   (atomically (dedup_step l' create handle e) w).
Proof.
  destruct w as [s c rs].
  unfold atomically, dedup_step, when, console_log, console_at, gets, unique, throw,
    mbind, M_bind, mret, M_ret.
  destruct (bool_decide (l = Some DEBUG)), (bool_decide (l' = Some DEBUG)); simpl;
    destruct (filter _ (events s)) as [|d [|d' ds]]; simpl; try done;
    match goal with
    | |- context [new_event_step create handle e (mkWorld s ?c1 rs)] =>
        match goal with
        | |- same_but_console _ (match new_event_step create handle e (mkWorld s ?c2 rs) with _ => _ end) =>
            pose proof (new_event_step_console create handle e s c1 c2 rs) as Hs;
            destruct (new_event_step create handle e (mkWorld s c1 rs)) as [[] w1|w1|w1],
                     (new_event_step create handle e (mkWorld s c2 rs)) as [[] w2|w2|w2];
            simpl in *; tauto
        end
    end.
Qed.

End LogLevel.

(** X12. The argument [logLevel] of [processEvent] changes the console
    only: with any two values of it the call has the same outcome, the same
    store and the same requests. *)
Theorem logLevel_only_logs `{Host} (e : Event) (h : option string) (l l' : option LogLevel)
    (w : World) :
  same_but_console (Lib.processEvent (Lib.Build_processEvent_args e l h) w)
                   (Lib.processEvent (Lib.Build_processEvent_args e l' h) w).
Proof. rewrite !Lib_processEvent_unfold. apply dedup_step_console. Qed.

(** ** Invariants of the puller and of the reconciler *)

Section LoopInvariants.
Context `{Host}.

Lemma for_of_processEvent_inv (P : Store → Prop) (l : list Event) (lvl : option LogLevel)
    (h : option string) (w : World) :
  applier_invariant P → P (store w) →
  P (store (world_of (for_of l (λ event, Lib.processEvent {|
       Lib.pe_event := event; Lib.pe_logLevel := lvl; Lib.pe_onEventHandle := h |}) w))).
Proof.
  intros HP. revert w. induction l as [|e l IH]; intros w Hw; simpl; [done|].
  unfold mbind, M_bind.
  set (a := {| Lib.pe_event := e; Lib.pe_logLevel := lvl; Lib.pe_onEventHandle := h |}).
  pose proof (HP a w Hw) as Ha. unfold apply_event in Ha.
  destruct (Lib.processEvent a w) as [[] w1|w1|w1]; simpl in *; auto.
Qed.

Lemma updateEvents_pages_inv (P : Store → Prop) (fuel : nat) (args : Lib.updateEvents_args)
    (eventTypes : list string) (nextCursor : option string) (w : World) :
  applier_invariant P → P (store w) →
  P (store (world_of (Lib.updateEvents_pages fuel args eventTypes nextCursor w))).
Proof.
  intros HP. revert nextCursor w. induction fuel as [|fuel IH]; intros nextCursor w Hw; [done|].
  simpl. unfold mbind, M_bind, workos_listEvents. simpl.
  set (req := mkRequest eventTypes nextCursor None).
  set (page := listEvents (Lib.ue_apiKey args) req).
  set (w1 := mkWorld (store w) (console w) (requests w ++ [req])).
  pose proof (for_of_processEvent_inv P (data page) (Lib.ue_logLevel args)
                (Lib.ue_onEventHandle args) w1 HP Hw) as Hf.
  destruct (for_of (data page) _ w1) as [[] w2|w2|w2]; simpl in *; try done.
  destruct (truthy (listMetadata_after page)); simpl; auto.
Qed.

Lemma updateEvents_inv (P : Store → Prop) (fuel : nat) (args : Lib.updateEvents_args)
    (w : World) :
  applier_invariant P → P (store w) →
  P (store (world_of (Lib.updateEvents fuel args w))).
Proof.
  intros HP Hw. unfold Lib.updateEvents, internalAction, Lib.getCursor, internalQuery,
    gets, mbind, M_bind, mret, M_ret. simpl.
  by apply updateEvents_pages_inv.
Qed.

Lemma backfill_events_inv (P : Store → Prop) (args : Lib.backfillEvents_args)
    (missing : gset string) (l : list Event) (r : Lib.backfillEvents_result) (w : World) :
  applier_invariant P → P (store w) →
  P (store (world_of (Lib.backfill_events args missing l r w))).
Proof.
  intros HP. revert r w. induction l as [|e l IH]; intros r w Hw; simpl; [done|].
  destruct (bool_decide (ev_id e ∈ missing)); simpl; [|by apply IH].
  unfold mbind, M_bind.
  match goal with |- context [Lib.processEvent ?a w] =>
    pose proof (HP a w Hw) as Ha; unfold apply_event in Ha;
    destruct (Lib.processEvent a w) as [[] w1|w1|w1]; simpl in *; auto end.
Qed.

Lemma backfill_pages_inv (P : Store → Prop) (fuel : nat) (args : Lib.backfillEvents_args)
    (eventTypes : list string) (t : nat) (nextCursor : option string)
    (r : Lib.backfillEvents_result) (w : World) :
  applier_invariant P → P (store w) →
  P (store (world_of (Lib.backfill_pages fuel args eventTypes t nextCursor r w))).
Proof.
  intros HP. revert nextCursor r w.
  induction fuel as [|fuel IH]; intros nextCursor r w Hw; [done|].
  simpl. unfold mbind, M_bind, workos_listEvents. simpl.
  set (req := mkRequest eventTypes nextCursor None).
  set (page := listEvents (Lib.bf_apiKey args) req).
  destruct (bool_decide (List.length (data page) = 0)); simpl; [done|].
  match goal with |- context [when ?b (console_log ?l) ?w1] =>
    destruct (when_console_log b l w1) as [c Hc]; rewrite Hc; clear Hc end.
  simpl.
  match goal with |- context [Lib.backfill_events args ?m ?l r ?w2] =>
    pose proof (backfill_events_inv P args m l r w2 HP Hw) as Hev;
    destruct (Lib.backfill_events args m l r w2) as [r1 w3|w3|w3]; simpl in *; try done end.
  destruct (negb (truthy (listMetadata_after page))); simpl; auto.
Qed.

Lemma backfillEvents_inv (P : Store → Prop) (fuel : nat) (args : Lib.backfillEvents_args)
    (w : World) :
  applier_invariant P → checkpoint_invariant P → P (store w) →
  P (store (world_of (Lib.backfillEvents fuel args w))).
Proof.
  intros HP HC Hw. unfold Lib.backfillEvents, internalAction.
  unfold mbind at 1, M_bind at 1.
  destruct (getLastCheckpointedEvent_run w) as [[o Ho]|Ho]; rewrite Ho; [|done].
  set (t := default 0 (Lib.cp_creationTime <$> o)).
  set (first := Lib.cp_eventId <$> o).
  unfold mbind at 1, M_bind at 1.
  match goal with |- context [when ?b ?m w] =>
    assert (∃ c, when b m w = Ok tt (mkWorld (store w) c (requests w))) as [c Hc] end.
  { unfold when, console_log, console_at, mbind, M_bind. destruct (bool_decide _); simpl.
    - by eexists.
    - exists (console w). by destruct w. }
  rewrite Hc. clear Hc.
  unfold mbind at 1, M_bind at 1.
  match goal with |- context [Lib.backfill_pages fuel args ?ty t first ?r0 ?w1] =>
    pose proof (backfill_pages_inv P fuel args ty t first r0 w1 HP Hw) as Hpages;
    destruct (Lib.backfill_pages fuel args ty t first r0 w1) as [r1 w2|w2|w2];
      simpl in Hpages; try done end.
  unfold mbind at 1, M_bind at 1.
  assert (∀ w3, P (store w3) →
            P (store (world_of ((when (bool_decide (Lib.bf_logLevel args = Some DEBUG))
            (console_log [LStr ("Backfill complete. Processed: " +:+ pretty (Lib.processed r1)
                        +:+ ", Skipped: " +:+ pretty (Lib.skipped r1)
                        +:+ ", Last event: " +:+ default "null" (Lib.lastEventId r1))]);;
            mret r1) w3)))) as Hend.
  { intros w3 Hw3. unfold when, console_log, console_at, mbind, M_bind, mret, M_ret.
    by destruct (bool_decide _). }
  destruct (Lib.lastEventId r1) as [l|].
  - unfold when at 1. destruct (truthy (Some l)).
    + pose proof (HC l w2 Hpages) as Hup.
      destruct (Lib.updateLastCheckpointedEventId l w2) as [[] w3|w3|w3]; simpl in Hup;
        try done.
      by apply Hend.
    + unfold mret at 1, M_ret at 1. by apply Hend.
  - unfold mret at 1, M_ret at 1. by apply Hend.
Qed.

(** *** Instances *)

Lemma wf_applier : applier_invariant wf.
Proof. intros args w. apply apply_event_wf. Qed.

Lemma updateLastCheckpointedEventId_unfold (l : string) (w : World) :
  Lib.updateLastCheckpointedEventId l w =
  match filter (λ d : Doc SyncRow, key (row d) = "lastCheckpointedEventId")
          (syncState (store w)) with
  | [] => Ok tt (mkWorld
            (tick (set_syncState
               (λ t, t ++ [stamp (store w) (mkSyncRow "lastCheckpointedEventId" l)]) (store w)))
            (console w) (requests w))
  | [d] =>
      match list_find (λ x : Doc SyncRow, _id x = _id d) (syncState (store w)) with
      | Some _ => Ok tt (mkWorld
            (set_syncState (fmap (patch_doc (λ r, mkSyncRow (key r) l) (_id d))) (store w))
            (console w) (requests w))
      | None => Throw w
      end
  | _ => Throw w
  end.
Proof.
  unfold Lib.updateLastCheckpointedEventId, internalMutation, mutation, atomically,
    gets, unique, throw, db_patch_syncState_value, db_insert_syncState, modify,
    mbind, M_bind, mret, M_ret. simpl.
  destruct (filter _ (syncState (store w))) as [|d [|d' ds]]; simpl;
    try done; try (by destruct w).
  destruct (list_find _ _); simpl; [done|by destruct w].
Qed.

Lemma wf_checkpoint : checkpoint_invariant wf.
Proof.
  intros l w Hwf. rewrite updateLastCheckpointedEventId_unfold.
  destruct (filter _ (syncState (store w))) as [|d [|d' ds]] eqn:E; simpl; try done.
  - destruct Hwf as [He Hu Hui Hsk Hsi Hec Huc Hsc]. split; simpl; try done.
    + rewrite fmap_app. apply NoDup_app. split; [done|]. split; [|apply NoDup_singleton].
      intros k Hk ->%list_elem_of_singleton.
      apply list_elem_of_fmap in Hk as (x & Hx & Hin).
      eapply (filter_nil_not_elem_of _ _ x); [exact E| |exact Hin]. done.
    + rewrite fmap_app. apply NoDup_app. split; [done|]. split; [|apply NoDup_singleton].
      intros k Hk ->%list_elem_of_singleton.
      apply list_elem_of_fmap in Hk as (x & Hx & Hin).
      rewrite Forall_forall in Hsc. apply Hsc in Hin. simpl in Hx. lia.
    + eapply Forall_impl; [exact Hec|]. simpl. intros; lia.
    + eapply Forall_impl; [exact Huc|]. simpl. intros; lia.
    + apply Forall_app. split; [|repeat constructor; simpl; lia].
      eapply Forall_impl; [exact Hsc|]. simpl. intros; lia.
  - destruct (list_find _ _); simpl; [|done].
    destruct Hwf as [He Hu Hui Hsk Hsi Hec Huc Hsc]. split; simpl; try done.
    + rewrite <- list_fmap_compose. erewrite list_fmap_ext; [exact Hsk|].
      intros i x Hx. simpl. unfold patch_doc. by case_decide.
    + rewrite <- list_fmap_compose. erewrite list_fmap_ext; [exact Hsi|].
      intros i x Hx. simpl. apply patch_doc_id.
    + apply Forall_fmap. eapply Forall_impl; [exact Hsc|].
      intros x Hx. simpl. by rewrite patch_doc_id.
Qed.


Lemma updateLastCheckpointedEventId_frame (l : string) (w : World) :
  let s' := store (world_of (Lib.updateLastCheckpointedEventId l w)) in
  events s' = events (store w) ∧ users s' = users (store w) ∧
  calls s' = calls (store w) ∧ app s' = app (store w) ∧ pool s' = pool (store w) ∧
  clock (store w) ≤ clock s'.
Proof.
  rewrite updateLastCheckpointedEventId_unfold.
  destruct (filter _ (syncState (store w))) as [|d [|d' ds]]; simpl; try done.
  - repeat split; lia.
  - destruct (list_find _ _); simpl; done.
Qed.


Lemma grows_applier (s0 : Store) : applier_invariant (grows s0).
Proof.
  intros args w Hw. destruct (apply_step args w) as [->|Hs]; [done|].
  eapply grows_trans; [exact Hw|]. by eapply step_rel_grows.
Qed.

Lemma grows_checkpoint (s0 : Store) : checkpoint_invariant (grows s0).
Proof.
  intros l w (new & E & F & C).
  destruct (updateLastCheckpointedEventId_frame l w) as (He & _ & _ & _ & _ & Hc).
  exists new. rewrite He. repeat split; [done..|lia].
Qed.

Lemma frame_applier (s0 : Store) :
  applier_invariant (λ s, syncState s = syncState s0 ∧ pool s = pool s0).
Proof.
  intros args w [Hs Hp]. destruct (apply_step args w) as [->|Hst]; [done|].
  apply step_rel_frame in Hst as (-> & -> & _). done.
Qed.

End LoopInvariants.

(** X13. The data model is an invariant of the component: from a
    well-formed store (unique event ids, user ids, state keys and document
    ids, every stamp older than the clock), [processEvent], [updateEvents],
    [backfillEvents], [updateLastCheckpointedEventId] and
    [enqueueWebhookEvent] leave a well-formed store, whether they return,
    throw or are cut off. *)
Theorem lib_keeps_wf `{Host} (w : World) :
  wf (store w) →
  (∀ args, wf (store (world_of (Lib.processEvent args w)))) ∧
  (∀ fuel args, wf (store (world_of (Lib.updateEvents fuel args w)))) ∧
  (∀ fuel args, wf (store (world_of (Lib.backfillEvents fuel args w)))) ∧
  (∀ l, wf (store (world_of (Lib.updateLastCheckpointedEventId l w)))) ∧
  (∀ args, wf (store (world_of (Lib.enqueueWebhookEvent args w)))).
Proof.
  intros Hwf. split; [|split; [|split; [|split]]].
  - intros args. by apply apply_event_wf.
  - intros fuel args. apply updateEvents_inv; [apply wf_applier|done].
  - intros fuel args. apply backfillEvents_inv; [apply wf_applier|apply wf_checkpoint|done].
  - intros l. by apply wf_checkpoint.
  - intros args. simpl. destruct Hwf. by split.
Qed.


(** X15. The table [events] is append-only: [processEvent], [updateEvents]
    and [backfillEvents] only add documents at its end, stamped at or after
    the clock they started from, whatever their outcome;
    [updateLastCheckpointedEventId] and [enqueueWebhookEvent] leave it as it
    was. *)
Theorem events_append_only `{Host} (w : World) :
  (∀ args, grows (store w) (store (world_of (Lib.processEvent args w)))) ∧
  (∀ fuel args, grows (store w) (store (world_of (Lib.updateEvents fuel args w)))) ∧
  (∀ fuel args, grows (store w) (store (world_of (Lib.backfillEvents fuel args w)))) ∧
  (∀ l, events (store (world_of (Lib.updateLastCheckpointedEventId l w))) = events (store w)) ∧
  (∀ args, events (store (world_of (Lib.enqueueWebhookEvent args w))) = events (store w)).
Proof.
  split; [|split; [|split; [|split]]].
  - intros args. apply (grows_applier (store w) args w), grows_refl.
  - intros fuel args. apply updateEvents_inv; [apply grows_applier|apply grows_refl].
  - intros fuel args.
    apply backfillEvents_inv; [apply grows_applier|apply grows_checkpoint|apply grows_refl].
  - intros l. apply updateLastCheckpointedEventId_frame.
  - done.
Qed.

(** X16. [processEvent], [updateEvents] and [enqueueWebhookEvent] never
    write the table [syncState]: the Checkpoint moves only in
    [backfillEvents]. A run of [updateEvents] leaves the work pool alone as
    well. *)
Theorem puller_keeps_checkpoint `{Host} (w : World) :
  (∀ args, syncState (store (world_of (Lib.processEvent args w))) = syncState (store w)) ∧
  (∀ fuel args,
     syncState (store (world_of (Lib.updateEvents fuel args w))) = syncState (store w) ∧
     pool (store (world_of (Lib.updateEvents fuel args w))) = pool (store w)) ∧
  (∀ args, syncState (store (world_of (Lib.enqueueWebhookEvent args w))) = syncState (store w)).
Proof.
  split; [|split].
  - intros args. by apply (frame_applier (store w) args w).
  - intros fuel args.
    by apply (updateEvents_inv (λ s, syncState s = syncState (store w) ∧ pool s = pool (store w)));
      [apply frame_applier|].
  - done.
Qed.

(** ** The walk of the puller over the feed *)

Section Walk.
Context `{Host}.

Lemma recorded_events_of (i : string) (s : Store) : recorded i s ↔ events_of i s ≠ [].
Proof.
  split.
  - intros (d & Hd & Hi) E. eapply (filter_nil_not_elem_of _ _ d); [exact E|exact Hi|exact Hd].
  - intros Hne. unfold events_of in Hne.
    destruct (filter _ (events s)) as [|d l] eqn:E; [done|].
    assert (d ∈ filter (λ d, eventId (row d) = i) (events s)) as Hd by (rewrite E; left).
    apply list_elem_of_filter in Hd as [Hi Hd]. by exists d.
Qed.

Lemma step_rel_recorded create handle e (s s' : Store) :
  step_rel create handle e s s' →
  recorded (ev_id e) s' ∧ ∀ i, recorded i s → recorded i s'.
Proof.
  intros Hs. split.
  - apply recorded_events_of. destruct (events_of_recorded _ _ _ _ _ Hs) as [d ->]. done.
  - intros i. rewrite !recorded_events_of. by eapply events_of_grows.
Qed.

Lemma step_rel_recorded_same create handle e (s s' : Store) :
  step_rel create handle e s s' → recorded (ev_id e) s → s' = s.
Proof.
  intros Hs Hrec. apply recorded_events_of in Hrec.
  apply step_rel_events in Hs as [[-> _]|(E & _)]; done.
Qed.

Lemma for_of_processEvent_recorded (l : list Event) (lvl : option LogLevel)
    (h : option string) (w w' : World) :
  for_of l (λ event, Lib.processEvent {|
    Lib.pe_event := event; Lib.pe_logLevel := lvl; Lib.pe_onEventHandle := h |}) w = Ok tt w' →
  requests w' = requests w ∧
  (∀ e, e ∈ l → recorded (ev_id e) (store w')) ∧
  (∀ i, recorded i (store w) → recorded i (store w')).
Proof.
  revert w. induction l as [|e l IH]; intros w Hrun; simpl in Hrun.
  { injection Hrun as <-. split; [done|]. split; [|done]. intros e He. by apply elem_of_nil in He. }
  unfold mbind, M_bind in Hrun.
  set (a := {| Lib.pe_event := e; Lib.pe_logLevel := lvl; Lib.pe_onEventHandle := h |}) in *.
  pose proof (Lib_processEvent_step a w) as Hs.
  destruct (Lib.processEvent a w) as [[] w1|w1|w1]; try done.
  destruct Hs as [Hr Hs]. apply step_rel_recorded in Hs as [He Hmono]. simpl in *.
  apply IH in Hrun as (Hr' & Hl & Hmono').
  split; [congruence|]. split; [|by auto].
  intros e' [->|He']%elem_of_cons; auto.
Qed.

Lemma updateEvents_pages_recorded (fuel : nat) (args : Lib.updateEvents_args)
    (eventTypes : list string) (nextCursor : option string) (w w' : World) :
  Lib.updateEvents_pages fuel args eventTypes nextCursor w = Ok tt w' →
  ∃ rs, requests w' = requests w ++ rs ∧
    (∀ e, e ∈ observed (Lib.ue_apiKey args) rs → recorded (ev_id e) (store w')) ∧
    (∀ i, recorded i (store w) → recorded i (store w')).
Proof.
  revert nextCursor w. induction fuel as [|fuel IH]; intros nextCursor w Hrun; [done|].
  simpl in Hrun. unfold mbind, M_bind, workos_listEvents in Hrun. simpl in Hrun.
  set (req := mkRequest eventTypes nextCursor None) in *.
  set (page := listEvents (Lib.ue_apiKey args) req) in *.
  match type of Hrun with context [for_of ?l ?body ?w1] =>
    destruct (for_of l body w1) as [[] w2|w2|w2] eqn:Hfor; try done end.
  apply for_of_processEvent_recorded in Hfor as (Hr & Hl & Hmono). simpl in *.
  destruct (truthy (listMetadata_after page)); simpl in Hrun.
  - apply IH in Hrun as (rs & Hrs & Hobs & Hmono').
    exists (req :: rs). split; [rewrite Hrs, Hr; by rewrite <- app_assoc|].
    split; [|by auto]. unfold observed. simpl. fold page.
    intros e [He|He]%elem_of_app; auto.
  - injection Hrun as <-. exists [req]. split; [done|]. split; [|done].
    unfold observed. simpl. fold page. rewrite app_nil_r. done.
Qed.

Lemma updateEvents_pages_follows (fuel : nat) (args : Lib.updateEvents_args)
    (eventTypes : list string) (nextCursor : option string) (w : World) :
  ∃ rs,
    requests (world_of (Lib.updateEvents_pages fuel args eventTypes nextCursor w))
    = requests w ++ rs ∧
    follows (Lib.ue_apiKey args) eventTypes nextCursor rs ∧
    (0 < fuel → rs ≠ []) ∧
    (returned (Lib.updateEvents_pages fuel args eventTypes nextCursor w) = true →
     ∃ q, last rs = Some q ∧
          truthy (listMetadata_after (listEvents (Lib.ue_apiKey args) q)) = false).
Proof.
  revert nextCursor w. induction fuel as [|fuel IH]; intros nextCursor w.
  { exists []. simpl. rewrite app_nil_r. split; [done|]. split; [done|]. split; [lia|done]. }
  simpl. unfold mbind, M_bind, workos_listEvents. simpl.
  set (req := mkRequest eventTypes nextCursor None).
  set (page := listEvents (Lib.ue_apiKey args) req).
  set (w1 := mkWorld (store w) (console w) (requests w ++ [req])).
  match goal with |- context [for_of ?l ?body w1] =>
    pose proof (for_of_keeps_requests body l w1
                  (λ x w, Lib_processEvent_keeps_requests _ w)) as Hk;
    destruct (for_of l body w1) as [[] w2|w2|w2]; simpl in Hk; try done end.
  - destruct (truthy (listMetadata_after page)) eqn:Ht; simpl.
    + destruct (IH (listMetadata_after page) w2) as (rs & Hrs & Hf & Hne & Hret).
      exists (req :: rs). split; [rewrite Hrs, Hk; by rewrite <- app_assoc|].
      split; [simpl; fold page; auto|]. split; [done|].
      intros Hr. destruct (Hret Hr) as (q & Hq & Hend). exists q. split; [|done].
      destruct rs; [done|]. done.
    + exists [req]. split; [by rewrite Hk|]. split; [simpl; auto|]. split; [done|].
      intros _. exists req. by split.
  - exists [req]. simpl. split; [by rewrite Hk|]. split; [auto|]. split; done.
Qed.

End Walk.

(** X17. When a run of [updateEvents] returns, every event the feed has
    answered in the run is in the table [events]. *)
Theorem updateEvents_records_observed `{Host} (fuel : nat) (args : Lib.updateEvents_args)
    (w w' : World) :
  Lib.updateEvents fuel args w = Ok tt w' →
  ∀ e, e ∈ observed (Lib.ue_apiKey args) (sent w w') →
       ∃ d, d ∈ events (store w') ∧ eventId (row d) = ev_id e.
Proof.
  unfold Lib.updateEvents, internalAction, Lib.getCursor, internalQuery,
    gets, mbind, M_bind, mret, M_ret. simpl. intros Hrun.
  apply updateEvents_pages_recorded in Hrun as (rs & Hrs & Hobs & _).
  unfold sent. rewrite Hrs, drop_app_length. exact Hobs.
Qed.

(** X18. A run of [updateEvents] (with fuel for one page at least) sends at
    least one request, after those sent before it; the first asks
    for the events after the id of the newest document of [events] (no
    cursor when the table is empty), each later one for the events after the
    continuation token of the answer before it, which is truthy; every
    request asks for the three user event types followed by the caller's
    types. When the run returns, the last answer carried no truthy token. *)
Theorem updateEvents_follows_cursor `{Host} (fuel : nat) (args : Lib.updateEvents_args)
    (w : World) :
  let run := Lib.updateEvents (S fuel) args w in
  let rs := sent w (world_of run) in
  requests w `prefix_of` requests (world_of run) ∧
  rs ≠ [] ∧
  follows (Lib.ue_apiKey args) (Lib.eventTypes_of (Lib.ue_eventTypes args))
    (eventId ∘ row <$> last (events (store w))) rs ∧
  (returned run = true →
   ∃ q, last rs = Some q ∧
        truthy (listMetadata_after (listEvents (Lib.ue_apiKey args) q)) = false).
Proof.
  intros run rs. unfold rs, run.
  unfold Lib.updateEvents, internalAction, Lib.getCursor, internalQuery,
    gets, mbind, M_bind, mret, M_ret, first_desc.
  change (store (mkWorld (store w) (console w) (requests w))) with (store w).
  destruct (updateEvents_pages_follows (S fuel) args (Lib.eventTypes_of (Lib.ue_eventTypes args))
              (eventId ∘ row <$> last (events (store w))) w) as (rs' & Hrs & Hf & Hne & Hend).
  unfold sent. rewrite Hrs, drop_app_length.
  split; [by eexists|]. split; [apply Hne; lia|]. split; [done|].
  exact Hend.
Qed.

Section PullerRerun.
Context `{Host}.



End PullerRerun.


(** ** The walk of the reconciler, and its queries *)

Section ReconcilerRuns.
Context `{Host}.

Lemma backfill_events_Ok (args : Lib.backfillEvents_args) (missing : gset string)
    (l : list Event) (r r' : Lib.backfillEvents_result) (w w' : World) :
  Lib.backfill_events args missing l r w = Ok r' w' →
  requests w' = requests w ∧
  (∀ i, recorded i (store w) → recorded i (store w')) ∧
  ((∀ e, e ∈ l → ev_id e ∉ missing → recorded (ev_id e) (store w)) →
   ∀ e, e ∈ l → recorded (ev_id e) (store w')) ∧
  ((∀ e, e ∈ l → recorded (ev_id e) (store w)) → store w' = store w).
Proof.
  revert r w. induction l as [|e l IH]; intros r w Hrun; simpl in Hrun.
  { injection Hrun as -> ->. split; [done|]. split; [done|]. split; [|done].
    intros _ e He. by apply elem_of_nil in He. }
  destruct (bool_decide (ev_id e ∈ missing)) eqn:Hm; simpl in Hrun.
  - unfold mbind, M_bind in Hrun.
    match type of Hrun with context [Lib.processEvent ?a w] =>
      pose proof (Lib_processEvent_step a w) as Hs;
      destruct (Lib.processEvent a w) as [[] w1|w1|w1]; try done end.
    simpl in Hs. destruct Hs as [Hr Hs].
    pose proof (step_rel_recorded _ _ _ _ _ Hs) as [He Hmono].
    apply IH in Hrun as (Hr' & Hmono' & Hrec' & Hsame').
    split; [congruence|]. split; [by auto|]. split.
    + intros Hskip e' [->|He']%elem_of_cons; [by auto|].
      apply Hrec'; [|done]. intros e'' He'' Hm''. apply Hmono, Hskip; [by right|done].
    + intros Hall.
      assert (store w1 = store w) as Hw1.
      { eapply step_rel_recorded_same; [exact Hs|]. apply Hall. by left. }
      rewrite Hsame'; [done|]. intros e' He'. rewrite Hw1. apply Hall. by right.
  - apply bool_decide_eq_false in Hm.
    apply IH in Hrun as (Hr' & Hmono' & Hrec' & Hsame').
    split; [done|]. split; [done|]. split.
    + intros Hskip e' [->|He']%elem_of_cons.
      * apply Hmono', Hskip; [by left|done].
      * apply Hrec'; [|done]. intros e'' He'' Hm''. apply Hskip; [by right|done].
    + intros Hall. apply Hsame'. intros e' He'. apply Hall. by right.
Qed.

Lemma backfill_pages_Ok (fuel : nat) (args : Lib.backfillEvents_args)
    (eventTypes : list string) (t : nat) (nextCursor : option string)
    (r r' : Lib.backfillEvents_result) (w w' : World) :
  Lib.backfill_pages fuel args eventTypes t nextCursor r w = Ok r' w' →
  ∃ rs, requests w' = requests w ++ rs ∧ rs ≠ [] ∧
    follows (Lib.bf_apiKey args) eventTypes nextCursor rs ∧
    (∃ q, last rs = Some q ∧
          (data (listEvents (Lib.bf_apiKey args) q) = [] ∨
           truthy (listMetadata_after (listEvents (Lib.bf_apiKey args) q)) = false)) ∧
    (∀ i, recorded i (store w) → recorded i (store w')) ∧
    (∀ e, e ∈ observed (Lib.bf_apiKey args) rs → recorded (ev_id e) (store w')) ∧
    ((∀ e, e ∈ observed (Lib.bf_apiKey args) rs → recorded (ev_id e) (store w)) →
     store w' = store w).
Proof.
  revert nextCursor r w. induction fuel as [|fuel IH]; intros nextCursor r w Hrun; [done|].
  simpl in Hrun. unfold mbind, M_bind, workos_listEvents in Hrun. simpl in Hrun.
  set (req := mkRequest eventTypes nextCursor None) in *.
  set (page := listEvents (Lib.bf_apiKey args) req) in *.
  destruct (bool_decide (List.length (data page) = 0)) eqn:Hlen; simpl in Hrun.
  { injection Hrun as -> <-. exists [req].
    apply bool_decide_eq_true in Hlen. apply nil_length_inv in Hlen.
    split; [done|]. split; [done|]. split; [simpl; auto|].
    split; [exists req; split; [done|]; by left|]. split; [done|].
    unfold observed. simpl. fold page. rewrite Hlen. simpl.
    split; [|done]. intros e He. by apply elem_of_nil in He. }
  match type of Hrun with context [when ?b (console_log ?l) ?w1] =>
    destruct (when_console_log b l w1) as [c Hc]; rewrite Hc in Hrun; clear Hc end.
  simpl in Hrun.
  match type of Hrun with context [Lib.backfill_events args ?m ?l r ?w2] =>
    destruct (Lib.backfill_events args m l r w2) as [r1 w3|w3|w3] eqn:Hev; try done end.
  apply backfill_events_Ok in Hev as (Hr & Hmono & Hrec & Hsame). simpl in *.
  assert (∀ e, e ∈ data page → recorded (ev_id e) (store w3)) as Hpage.
  { apply Hrec. intros e He Hm. apply recorded_events_of.
    eapply missing_skipped; [|exact Hm]. apply list_elem_of_fmap. eauto. }
  clear Hrec.
  destruct (negb (truthy (listMetadata_after page))) eqn:Hafter; simpl in Hrun.
  - injection Hrun as -> ->. exists [req].
    apply negb_true_iff in Hafter.
    split; [done|]. split; [done|]. split; [simpl; auto|].
    split; [exists req; split; [done|]; by right|]. split; [done|].
    unfold observed. simpl. fold page. rewrite app_nil_r. done.
  - apply negb_false_iff in Hafter.
    apply IH in Hrun as (rs & Hrs & Hne & Hf & (q & Hq & Hend) & Hmono' & Hobs & Hsame').
    exists (req :: rs). split; [rewrite Hrs, Hr; by rewrite <- app_assoc|].
    split; [done|]. split; [simpl; fold page; auto|].
    split; [exists q; split; [by destruct rs|done]|].
    split; [by auto|].
    unfold observed. simpl. fold page. fold (observed (Lib.bf_apiKey args) rs). split.
    + intros e [He|He]%elem_of_app; auto.
    + intros Hall.
      assert (store w3 = store w) as Hw3.
      { apply Hsame. intros e He. apply Hall, elem_of_app. by left. }
      rewrite Hsame'; [done|]. intros e He. rewrite Hw3. apply Hall, elem_of_app. by right.
Qed.

(** A run of the reconciler that returns: it has read the Checkpoint, walked
    the pages from it, and set the Checkpoint or left it. *)
Lemma backfillEvents_Ok (fuel : nat) (args : Lib.backfillEvents_args)
    (r : Lib.backfillEvents_result) (w w' : World) :
  Lib.backfillEvents fuel args w = Ok r w' →
  ∃ o c w2,
    Lib.getLastCheckpointedEvent tt w = Ok o w ∧
    Lib.backfill_pages fuel args (Lib.eventTypes_of (Lib.bf_eventTypes args))
      (default 0 (Lib.cp_creationTime <$> o)) (Lib.cp_eventId <$> o)
      {| Lib.processed := 0; Lib.skipped := 0; Lib.lastEventId := None |}
      (mkWorld (store w) c (requests w)) = Ok r w2 ∧
    requests w' = requests w2 ∧
    (store w' = store w2 ∨
     ∃ l w3, Lib.updateLastCheckpointedEventId l w2 = Ok tt w3 ∧
             requests w3 = requests w2 ∧ store w' = store w3).
Proof.
  unfold Lib.backfillEvents, internalAction. intros Hrun.
  unfold mbind at 1, M_bind at 1 in Hrun.
  destruct (getLastCheckpointedEvent_run w) as [[o Ho]|Ho]; rewrite Ho in Hrun; [|done].
  exists o.
  unfold mbind at 1, M_bind at 1 in Hrun.
  match type of Hrun with context [when ?b ?m w] =>
    assert (∃ c, when b m w = Ok tt (mkWorld (store w) c (requests w))) as [c Hc] end.
  { unfold when, console_log, console_at, mbind, M_bind. destruct (bool_decide _); simpl.
    - by eexists.
    - exists (console w). by destruct w. }
  rewrite Hc in Hrun. clear Hc. exists c.
  unfold mbind at 1, M_bind at 1 in Hrun.
  match type of Hrun with context [Lib.backfill_pages fuel args ?ty ?t ?first ?r0 ?w1] =>
    destruct (Lib.backfill_pages fuel args ty t first r0 w1) as [r1 w2|w2|w2] eqn:Hpages;
      try done end.
  exists w2.
  unfold mbind at 1, M_bind at 1 in Hrun.
  assert (∀ w3, (when (bool_decide (Lib.bf_logLevel args = Some DEBUG))
            (console_log [LStr ("Backfill complete. Processed: " +:+ pretty (Lib.processed r1)
                        +:+ ", Skipped: " +:+ pretty (Lib.skipped r1)
                        +:+ ", Last event: " +:+ default "null" (Lib.lastEventId r1))]);;
            mret r1) w3 = Ok r w' → r = r1 ∧ store w' = store w3 ∧ requests w' = requests w3)
    as Hend.
  { intros w3. unfold when, console_log, console_at, mbind, M_bind, mret, M_ret.
    destruct (bool_decide _); simpl; by intros [= <- <-]. }
  destruct (Lib.lastEventId r1) as [l|] eqn:Hl.
  - unfold when in Hrun. change (negb (String.eqb l "")) with (truthy (Some l)) in Hrun.
    destruct (truthy (Some l)) eqn:Htruthy.
    + destruct (Lib.updateLastCheckpointedEventId l w2) as [[] w3|w3|w3] eqn:Hup; try done.
      pose proof (updateLastCheckpointedEventId_run _ _ _ Hup) as (Hr3 & _).
      apply (Hend w3) in Hrun as (-> & Hs' & Hr').
      split; [done|]. split; [done|]. split; [congruence|]. right. eauto.
    + unfold mret at 1, M_ret at 1 in Hrun. apply (Hend w2) in Hrun as (-> & Hs' & Hr').
      split; [done|]. split; [done|]. split; [done|]. by left.
  - unfold mret at 1, M_ret at 1 in Hrun. apply (Hend w2) in Hrun as (-> & Hs' & Hr').
    split; [done|]. split; [done|]. split; [done|]. by left.
Qed.

Lemma getLastCheckpointedEvent_unfold (w : World) :
  Lib.getLastCheckpointedEvent tt w =
  match filter (λ d : Doc SyncRow, key (row d) = "lastCheckpointedEventId")
          (syncState (store w)) with
  | [] => Ok None w
  | [state] =>
      match events_of (value (row state)) (store w) with
      | [] => Ok None w
      | [event] => Ok (Some {| Lib.cp_eventId := eventId (row event);
                               Lib.cp_creationTime := _creationTime event |}) w
      | _ => Throw w
      end
  | _ => Throw w
  end.
Proof.
  unfold Lib.getLastCheckpointedEvent, internalQuery, gets, unique, throw,
    mbind, M_bind, mret, M_ret, events_of. simpl.
  destruct (filter _ (syncState (store w))) as [|d [|d' ds]]; simpl; try done.
  by destruct (filter _ (events (store w))) as [|x [|x' xs]].
Qed.

End ReconcilerRuns.

(** X20. When a run of [backfillEvents] returns, every event the feed has
    answered in the run is in the table [events], the skipped ones
    included. *)
Theorem backfillEvents_records_observed `{Host} (fuel : nat) (args : Lib.backfillEvents_args)
    (r : Lib.backfillEvents_result) (w w' : World) :
  Lib.backfillEvents fuel args w = Ok r w' →
  ∀ e, e ∈ observed (Lib.bf_apiKey args) (sent w w') →
       ∃ d, d ∈ events (store w') ∧ eventId (row d) = ev_id e.
Proof.
  intros Hrun. apply backfillEvents_Ok in Hrun as (o & c & w2 & _ & Hpages & Hr & Hst).
  apply backfill_pages_Ok in Hpages as (rs & Hrs & _ & _ & _ & _ & Hobs & _).
  simpl in Hrs. unfold sent. rewrite Hr, Hrs, drop_app_length.
  intros e He. apply Hobs in He. unfold recorded in *.
  destruct Hst as [->|(l & w3 & Hup & _ & ->)]; [done|].
  apply updateLastCheckpointedEventId_run in Hup as (_ & -> & _). done.
Qed.

(** X21. A run of [backfillEvents] that returns has sent at least one
    request; the first asks for the events after the event that
    [getLastCheckpointedEvent] returns (no cursor when it returns [null]),
    each later one for the events after the truthy continuation token of the
    answer before it; the last answer was empty or carried no truthy
    token. *)
Theorem backfillEvents_follows_cursor `{Host} (fuel : nat) (args : Lib.backfillEvents_args)
    (r : Lib.backfillEvents_result) (w w' : World) :
  Lib.backfillEvents fuel args w = Ok r w' →
  ∃ o, Lib.getLastCheckpointedEvent tt w = Ok o w ∧
    sent w w' ≠ [] ∧
    follows (Lib.bf_apiKey args) (Lib.eventTypes_of (Lib.bf_eventTypes args))
      (Lib.cp_eventId <$> o) (sent w w') ∧
    ∃ q, last (sent w w') = Some q ∧
         (data (listEvents (Lib.bf_apiKey args) q) = [] ∨
          truthy (listMetadata_after (listEvents (Lib.bf_apiKey args) q)) = false).
Proof.
  intros Hrun. apply backfillEvents_Ok in Hrun as (o & c & w2 & Ho & Hpages & Hr & _).
  apply backfill_pages_Ok in Hpages as (rs & Hrs & Hne & Hf & Hend & _).
  simpl in Hrs. unfold sent. rewrite Hr, Hrs, drop_app_length. eauto.
Qed.

(** X22. A run of [backfillEvents] that returns and is answered only
    events that were recorded already changes nothing but the Checkpoint:
    the tables [events] and [users], the calls of the handle, the state of
    the application and the work pool are as they were. *)
Theorem backfillEvents_rerun `{Host} (fuel : nat) (args : Lib.backfillEvents_args)
    (r : Lib.backfillEvents_result) (w w' : World) :
  Lib.backfillEvents fuel args w = Ok r w' →
  (∀ e, e ∈ observed (Lib.bf_apiKey args) (sent w w') →
        ∃ d, d ∈ events (store w) ∧ eventId (row d) = ev_id e) →
  events (store w') = events (store w) ∧ users (store w') = users (store w) ∧
  calls (store w') = calls (store w) ∧ app (store w') = app (store w) ∧
  pool (store w') = pool (store w).
Proof.
  intros Hrun. apply backfillEvents_Ok in Hrun as (o & c & w2 & _ & Hpages & Hr & Hst).
  apply backfill_pages_Ok in Hpages as (rs & Hrs & _ & _ & _ & _ & _ & Hsame).
  simpl in Hrs, Hsame. unfold sent. rewrite Hr, Hrs, drop_app_length.
  intros Hall. rewrite <- (Hsame Hall).
  destruct Hst as [->|(l & w3 & Hup & _ & ->)]; [done|].
  pose proof (updateLastCheckpointedEventId_frame l w2) as Hfr. rewrite Hup in Hfr.
  simpl in Hfr. tauto.
Qed.


Section Total.
Context `{Host}.


Lemma updateLastCheckpointedEventId_total (l : string) (w : World) :
  wf (store w) →
  ∃ w1, Lib.updateLastCheckpointedEventId l w = Ok tt w1 ∧
    (is_Some (checkpoint (store w)) →
     List.length (syncState (store w1)) = List.length (syncState (store w))).
Proof.
  intros Hwf. rewrite updateLastCheckpointedEventId_unfold. unfold checkpoint.
  destruct (filter_unique (λ d : Doc SyncRow, key (row d)) "lastCheckpointedEventId"
              (syncState (store w))) as [E|[d E]]; [apply Hwf| |]; rewrite E.
  - eexists. split; [done|]. simpl. by intros [? ?].
  - pose proof E as [Hd _]%filter_singleton_elem.
    destruct (list_find_elem_of (λ x : Doc SyncRow, _id x = _id d) _ d Hd eq_refl)
      as [[i x] ->].
    eexists. split; [done|]. intros _. simpl. by rewrite length_fmap.
Qed.

End Total.

(** X24. On a well-formed store [updateLastCheckpointedEventId] returns;
    afterwards the Checkpoint holds the given id, exactly one document of
    [syncState] has the key [lastCheckpointedEventId], no document is added
    when there was a Checkpoint already, and the store is well formed. *)
Theorem updateLastCheckpointedEventId_returns `{Host} (l : string) (w : World) :
  wf (store w) →
  ∃ w1, Lib.updateLastCheckpointedEventId l w = Ok tt w1 ∧
    checkpoint (store w1) = Some l ∧
    List.length (filter (λ d : Doc SyncRow, key (row d) = "lastCheckpointedEventId")
                   (syncState (store w1))) = 1 ∧
    (is_Some (checkpoint (store w)) →
     List.length (syncState (store w1)) = List.length (syncState (store w))) ∧
    wf (store w1).
Proof.
  intros Hwf. pose proof (wf_checkpoint l w Hwf) as Hwf1.
  destruct (updateLastCheckpointedEventId_total l w Hwf) as (w1 & Hrun & Hlen).
  exists w1. rewrite Hrun in Hwf1. simpl in Hwf1.
  pose proof (updateLastCheckpointedEventId_run _ _ _ Hrun) as (_ & _ & _ & _ & Hcp).
  split; [done|]. split; [done|]. split; [|done].
  unfold checkpoint in Hcp.
  destruct (filter_unique (λ d : Doc SyncRow, key (row d)) "lastCheckpointedEventId"
              (syncState (store w1))) as [E|[d E]]; [apply Hwf1| |]; rewrite E in *; done.
Qed.

(** X25. Write and read of the Checkpoint. On a well-formed store, after
    [updateLastCheckpointedEventId] has returned, [getLastCheckpointedEvent]
    returns the given id with the creation time of its record in [events],
    and [null] when the table [events] has no record of that id. *)
Theorem checkpoint_round_trip `{Host} (l : string) (w w1 : World) :
  wf (store w) →
  Lib.updateLastCheckpointedEventId l w = Ok tt w1 →
  Lib.getLastCheckpointedEvent tt w1
  = Ok (match events_of l (store w) with
        | d :: _ => Some {| Lib.cp_eventId := l; Lib.cp_creationTime := _creationTime d |}
        | [] => None
        end) w1.
Proof.
  intros Hwf Hrun. pose proof (wf_checkpoint l w Hwf) as Hwf1. rewrite Hrun in Hwf1.
  simpl in Hwf1.
  pose proof (updateLastCheckpointedEventId_run _ _ _ Hrun) as (_ & He & _ & _ & Hcp).
  rewrite getLastCheckpointedEvent_unfold. unfold checkpoint in Hcp.
  destruct (filter_unique (λ d : Doc SyncRow, key (row d)) "lastCheckpointedEventId"
              (syncState (store w1))) as [E|[st E]]; [apply Hwf1| |]; rewrite E in *; [done|].
  simpl in Hcp. injection Hcp as <-. unfold events_of. rewrite He.
  destruct (filter_unique (λ d : Doc EventRow, eventId (row d)) (value (row st))
              (events (store w))) as [E'|[d E']]; [apply Hwf| |]; rewrite E'; [done|].
  apply filter_singleton_elem in E' as [_ ->]. done.
Qed.

Section Revisions.
Context `{Host}.

Lemma for_of_ext {A} (f g : A → M unit) (l : list A) (w : World) :
  (∀ x w, f x w = g x w) → for_of l f w = for_of l g w.
Proof.
  intros Hfg. revert w. induction l as [|x l IH]; intros w; [done|].
  simpl. unfold mbind, M_bind. rewrite Hfg. by destruct (g x w).
Qed.

Lemma processEvent_revisions_unset (e : Event) (l : option LogLevel) (h : option string)
    (c : option bool) (w : World) :
  c ≠ Some true →
  LibRange.processEvent (LibRange.Build_processEvent_args e l h c) w
  = Lib.processEvent (Lib.Build_processEvent_args e l h) w.
Proof. intros Hc. by destruct c as [[]|]. Qed.

Lemma updateEvents_pages_revisions (fuel : nat) (apiKey : string) (h : option string)
    (types : option (list string)) (l : option LogLevel) (hours : option Z)
    (c : option bool) (eventTypes : list string) (nextCursor : option string) (w : World) :
  c ≠ Some true →
  LibRange.updateEvents_pages fuel
    (LibRange.Build_updateEvents_args apiKey h types l hours c) eventTypes nextCursor None w
  = Lib.updateEvents_pages fuel (Lib.Build_updateEvents_args apiKey h types l)
      eventTypes nextCursor w.
Proof.
  intros Hc. revert nextCursor w. induction fuel as [|fuel IH]; intros nextCursor w; [done|].
  simpl. unfold mbind, M_bind, workos_listEvents. simpl.
  erewrite for_of_ext; [|intros x w0; by apply processEvent_revisions_unset].
  match goal with |- context [for_of ?l ?body ?w1] => destruct (for_of l body w1) as [[] w2|w2|w2] end;
    try done.
  destruct (truthy _); [apply IH|done].
Qed.

End Revisions.

(** X26. The revision with [initialRangeHours] and [createUserOnUpdate]
    does what [src/component/lib.ts] does when [createUserOnUpdate] is not
    [true]: [processEvent] has the same outcome on every event; so has
    [updateEvents] on a store whose newest event has a truthy id; and
    [getAuthUser] is the same function. *)
Theorem revisions_agree `{Host} (apiKey : string) (h : option string)
    (types : option (list string)) (l : option LogLevel) (hours : option Z)
    (c : option bool) (w : World) :
  c ≠ Some true →
  (∀ e, LibRange.processEvent (LibRange.Build_processEvent_args e l h c) w
        = Lib.processEvent (Lib.Build_processEvent_args e l h) w) ∧
  (truthy (eventId ∘ row <$> last (events (store w))) = true →
   ∀ fuel,
     LibRange.updateEvents fuel (LibRange.Build_updateEvents_args apiKey h types l hours c) w
     = Lib.updateEvents fuel (Lib.Build_updateEvents_args apiKey h types l) w) ∧
  (∀ id, LibRange.getAuthUser id w = Lib.getAuthUser id w).
Proof.
  intros Hc. split; [|split].
  - intros e. by apply processEvent_revisions_unset.
  - intros Ht fuel.
    unfold LibRange.updateEvents, Lib.updateEvents, internalAction, LibRange.getCursor,
      Lib.getCursor, internalQuery, gets, mbind, M_bind, mret, M_ret, first_desc.
    change (store (mkWorld (store w) (console w) (requests w))) with (store w).
    cbv zeta. rewrite Ht.
    by apply updateEvents_pages_revisions.
  - done.
Qed.

(** X27. In the revision with [createUserOnUpdate]: after [processEvent]
    with [createUserOnUpdate = true] has returned for a [user.updated] event
    that was not recorded, for an id that no user record had, [getAuthUser]
    of that id returns the event data without [object]. *)
Theorem createUserOnUpdate_then_getAuthUser `{Host} (args : LibRange.processEvent_args)
    (id : string) (w w1 : World) :
  ev_event (LibRange.pe_event args) = "user.updated" →
  LibRange.pe_createUserOnUpdate args = Some true →
  ev_data (LibRange.pe_event args) !! "id" = Some id →
  events_of (ev_id (LibRange.pe_event args)) (store w) = [] →
  users_of (payload (LibRange.pe_event args)) (store w) = [] →
  LibRange.processEvent args w = Ok tt w1 →
  LibRange.getAuthUser id w1 = Ok (Some (payload (LibRange.pe_event args))) w1.
Proof.
  intros Hty Hc Hid Hnew Hmiss Hrun.
  pose proof (processEvent_step args w) as Hs. rewrite Hrun, Hc in Hs. destruct Hs as [_ Hs].
  destruct (step_rel_new_mirror _ _ _ _ _ Hs Hnew) as (s1 & Hm & Hu & _).
  change (LibRange.getAuthUser id w1) with (Lib.getAuthUser id w1).
  rewrite getAuthUser_unfold, Hu.
  rewrite <- (payload_lookup _ "id") in Hid by done.
  unfold users_of in Hmiss. rewrite Hid in Hmiss.
  inversion Hm; subst; simpl in *; try congruence.
  - rewrite filter_app, Hmiss. simpl. by rewrite filter_cons_True.
  - unfold users_of in *. simpl in *. rewrite Hid in *. congruence.
  - unfold users_of in *. simpl in *. rewrite Hid in *. congruence.
Qed.


(** X29. [processEvent] of the revision with [createUserOnUpdate] keeps a
    well-formed store well formed and is idempotent, whatever
    [createUserOnUpdate] is: once it has returned, a second application of
    the same event returns with the store as the first one left it and
    exactly one record of the event id. *)
Theorem LibRange_processEvent_idempotent `{Host} (args : LibRange.processEvent_args)
    (w w1 : World) :
  wf (store w) →
  LibRange.processEvent args w = Ok tt w1 →
  wf (store w1) ∧
  ∃ w2, LibRange.processEvent args w1 = Ok tt w2 ∧ store w2 = store w1 ∧
        List.length (events_of (ev_id (LibRange.pe_event args)) (store w2)) = 1.
Proof.
  intros Hwf Hrun. pose proof (processEvent_step args w) as Hs.
  rewrite Hrun in Hs. destruct Hs as [_ Hs].
  split; [by eapply step_rel_wf|].
  destruct (events_of_recorded _ _ _ _ _ Hs) as [d E].
  rewrite processEvent_unfold.
  destruct (dedup_step_known (LibRange.pe_logLevel args)
              (default false (LibRange.pe_createUserOnUpdate args))
              (LibRange.pe_onEventHandle args) (LibRange.pe_event args) d w1 E) as [c Hc].
  eexists. split; [exact Hc|]. simpl. by rewrite E.
Qed.

(** ** What can make a run throw *)

(** With a table [users] that takes every row and a handle that never
    throws. *)
Section NoThrow.
Context `{Host}.
Hypothesis Hval : ∀ d, usersValidator d = true.
Hypothesis Hhandle : ∀ h ev d a, is_Some (runHandle h ev d a).







End NoThrow.


(** ** The further properties on the example hosts *)

Lemma returned_unit `{Host} (r : Res unit) : returned r = true → r = Ok tt (world_of r).
Proof. by destruct r as [[] w|w|w]. Qed.

Lemma lib_keeps_wf_witness :
  (∀ args, wf (store (world_of (@Lib.processEvent Example.host args Example.world)))) ∧
  (∀ fuel args, wf (store (world_of (@Lib.updateEvents Example.host fuel args Example.world)))) ∧
  (∀ fuel args, wf (store (world_of (@Lib.backfillEvents Example.host fuel args Example.world)))) ∧
  (∀ l, wf (store (world_of (@Lib.updateLastCheckpointedEventId Example.host l Example.world)))) ∧
  (∀ args, wf (store (world_of (@Lib.enqueueWebhookEvent Example.host args Example.world)))).
Proof. apply (@lib_keeps_wf Example.host Example.world). apply wf_emptyWorld. Defined.

Lemma created_then_getAuthUser_witness :
  @Lib.getAuthUser Example.host "user_01" Example.world1
  = Ok (Some (payload Example.e_created)) Example.world1 ∧
  payload Example.e_created !! "object" = None.
Proof.
  apply (@created_then_getAuthUser Example.host (Example.args Example.e_created) "user_01"
           Example.world Example.world1).
  - reflexivity.
  - vm_compute. reflexivity.
  - vm_compute. reflexivity.
  - vm_compute. reflexivity.
  - reflexivity.
Defined.

Lemma deleted_then_getAuthUser_witness :
  @Lib.getAuthUser Example.host "user_01" Scenario.world_deleted = Ok None Scenario.world_deleted.
Proof.
  apply (@deleted_then_getAuthUser Example.host (Example.args Example.e_deleted) "user_01"
           Example.world1 Scenario.world_deleted).
  - exact wf_Example_world1.
  - reflexivity.
  - vm_compute. reflexivity.
  - vm_compute. reflexivity.
  - apply returned_Ok. vm_compute. reflexivity.
Defined.

Lemma getAuthUser_wf_witness :
  ∃ o, @Lib.getAuthUser Example.host "user_01" Example.world1 = Ok o Example.world1 ∧
    match o with
    | Some d => d !! "id" = Some "user_01" ∧ ∃ u, u ∈ users (store Example.world1) ∧ row u = d
    | None => ∀ u, u ∈ users (store Example.world1) → row u !! "id" ≠ Some "user_01"
    end.
Proof. apply (@getAuthUser_wf Example.host "user_01" Example.world1). exact wf_Example_world1. Defined.

Lemma created_existing_user_kept_witness :
  users (store (@apply_event Example.host (Example.args Example.e_created5) Example.world1))
  = users (store Example.world1).
Proof.
  apply (@created_existing_user_kept Example.host (Example.args Example.e_created5)
           Example.world1).
  - reflexivity.
  - intros Heq. vm_compute in Heq. discriminate Heq.
Defined.

Lemma other_event_types_witness :
  let a := Example.args Example.e_a in
  users (store (@apply_event Example.host a Example.world1)) = users (store Example.world1) ∧
  (∀ w1, @Lib.processEvent Example.host a Example.world1 = Ok tt w1 →
         events_of "event_a" (store Example.world1) = [] →
         events (store w1)
         = events (store Example.world1) ++
           [mkDoc (clock (store Example.world1)) (clock (store Example.world1))
              (mkEventRow "event_a" "organization.created" None)]).
Proof.
  intros a.
  apply (@other_event_types Example.host a Example.world1);
    intros Heq; vm_compute in Heq; discriminate Heq.
Defined.

Lemma handle_called_with_event_witness :
  ∃ h, Some "onEvent" = Some h ∧
    calls (store Example.world1) =
      calls (store Example.world) ++
      [mkHandlerCall "event_01" h "user.created" (ev_data Example.e_created)] ∧
    @runHandle Example.host h "user.created" (ev_data Example.e_created)
      (app (store Example.world)) = Some (app (store Example.world1)).
Proof.
  apply (@handle_called_with_event Example.host (Example.args Example.e_created)
           Example.world Example.world1).
  - vm_compute. reflexivity.
  - reflexivity.
Defined.

Lemma handle_failure_rolls_back_witness :
  ∃ w', @Lib.processEvent Scenario.host_failing (Example.args Example.e_created)
          Scenario.world_failing = Throw w' ∧
        store w' = store Scenario.world_failing ∧
        requests w' = requests Scenario.world_failing.
Proof.
  apply (@handle_failure_rolls_back Scenario.host_failing (Example.args Example.e_created)
           "onEvent" Scenario.world_failing); reflexivity.
Defined.

Lemma getCursor_after_processEvent_witness :
  @Lib.getCursor Example.host tt Example.world1 = Ok (Some "event_01") Example.world1 ∧
  ∀ fuel uargs, ∃ rest,
    requests (world_of (@Lib.updateEvents Example.host (S fuel) uargs Example.world1))
    = requests Example.world1 ++
      mkRequest (Lib.eventTypes_of (Lib.ue_eventTypes uargs)) (Some "event_01") None :: rest.
Proof.
  apply (@getCursor_after_processEvent Example.host (Example.args Example.e_created)
           Example.world Example.world1).
  - vm_compute. reflexivity.
  - reflexivity.
Defined.

Lemma processEvent_returns_witness :
  ∃ w', @Lib.processEvent Example.host (Example.args Example.e_upd2) Example.world1 = Ok tt w' ∧
        wf (store w').
Proof.
  apply (@processEvent_returns Example.host (Example.args Example.e_upd2) Example.world1).
  - exact wf_Example_world1.
  - intros h _ _. simpl. by eexists.
  - intros Heq. vm_compute in Heq. discriminate Heq.
  - intros _. apply Forall_forall, (bool_decide_unpack _). vm_compute. exact I.
Defined.


Lemma updated_then_getAuthUser_witness :
  @Lib.getAuthUser Example.host "user_01" Scenario.world_upd2
  = Ok (Some (if js_ge (row (Example.nth_user 0 Example.world1) !! "updatedAt")
                   (ev_data Example.e_upd2 !! "updatedAt")
              then row (Example.nth_user 0 Example.world1)
              else payload Example.e_upd2 ∪ row (Example.nth_user 0 Example.world1)))
       Scenario.world_upd2.
Proof.
  apply (@updated_then_getAuthUser Example.host (Example.args Example.e_upd2) "user_01"
           (Example.nth_user 0 Example.world1) Example.world1 Scenario.world_upd2).
  - exact wf_Example_world1.
  - reflexivity.
  - vm_compute. reflexivity.
  - vm_compute. reflexivity.
  - apply (bool_decide_unpack _). vm_compute. exact I.
  - vm_compute. reflexivity.
  - apply returned_Ok. vm_compute. reflexivity.
Defined.


Lemma updateEvents_records_observed_witness :
  returned Scenario.run_pull = true ∧
  ∀ e, e ∈ @observed Example.host_feed "sk_test"
             (sent Scenario.world_empty (world_of Scenario.run_pull)) →
       ∃ d, d ∈ events (store (world_of Scenario.run_pull)) ∧ eventId (row d) = ev_id e.
Proof.
  split; [vm_compute; reflexivity|].
  apply (@updateEvents_records_observed Example.host_feed 5 (Example.pull_args None)
           Scenario.world_empty (world_of Scenario.run_pull)).
  apply (returned_unit Scenario.run_pull). vm_compute. reflexivity.
Defined.

Lemma backfillEvents_records_observed_witness :
  let w := emptyWorld [Example.e_created; Example.e_upd2] 1 in
  returned Example.run_feed = true ∧
  ∀ e, e ∈ @observed Example.host_feed "sk_test" (sent w (world_of Example.run_feed)) →
       ∃ d, d ∈ events (store (world_of Example.run_feed)) ∧ eventId (row d) = ev_id e.
Proof.
  split; [vm_compute; reflexivity|].
  apply (@backfillEvents_records_observed Example.host_feed 5 (Example.bf_args None)
           (result Example.no_result Example.run_feed)
           (emptyWorld [Example.e_created; Example.e_upd2] 1) (world_of Example.run_feed)).
  apply (returned_result Example.no_result Example.run_feed). vm_compute. reflexivity.
Defined.

Lemma backfillEvents_follows_cursor_witness :
  let w := emptyWorld [Example.e_created; Example.e_upd2] 1 in
  let w' := world_of Example.run_feed in
  ∃ o, @Lib.getLastCheckpointedEvent Example.host_feed tt w = Ok o w ∧
    sent w w' ≠ [] ∧
    @follows Example.host_feed "sk_test" (Lib.eventTypes_of None) (Lib.cp_eventId <$> o)
      (sent w w') ∧
    ∃ q, last (sent w w') = Some q ∧
         (data (@listEvents Example.host_feed "sk_test" q) = [] ∨
          truthy (listMetadata_after (@listEvents Example.host_feed "sk_test" q)) = false).
Proof.
  apply (@backfillEvents_follows_cursor Example.host_feed 5 (Example.bf_args None)
           (result Example.no_result Example.run_feed)
           (emptyWorld [Example.e_created; Example.e_upd2] 1) (world_of Example.run_feed)).
  apply (returned_result Example.no_result Example.run_feed). vm_compute. reflexivity.
Defined.

Lemma backfillEvents_rerun_witness :
  let w := Example.world_feed in
  let w' := world_of Example.run_again in
  events (store w') = events (store w) ∧ users (store w') = users (store w) ∧
  calls (store w') = calls (store w) ∧ app (store w') = app (store w) ∧
  pool (store w') = pool (store w).
Proof.
  apply (@backfillEvents_rerun Example.host_feed 5 (Example.bf_args None)
           (result Example.no_result Example.run_again)
           Example.world_feed (world_of Example.run_again)).
  - apply (returned_result Example.no_result Example.run_again). vm_compute. reflexivity.
  - intros e He. apply (proj2 (recorded_events_of _ _)). revert e He.
    apply Forall_forall, (bool_decide_unpack _). vm_compute. exact I.
Defined.

Lemma updateLastCheckpointedEventId_returns_witness :
  ∃ w1, @Lib.updateLastCheckpointedEventId Example.host "event_01" Example.world1 = Ok tt w1 ∧
    checkpoint (store w1) = Some "event_01" ∧
    List.length (filter (λ d : Doc SyncRow, key (row d) = "lastCheckpointedEventId")
                   (syncState (store w1))) = 1 ∧
    (is_Some (checkpoint (store Example.world1)) →
     List.length (syncState (store w1)) = List.length (syncState (store Example.world1))) ∧
    wf (store w1).
Proof.
  apply (@updateLastCheckpointedEventId_returns Example.host "event_01" Example.world1).
  exact wf_Example_world1.
Defined.

Lemma checkpoint_round_trip_witness :
  @Lib.getLastCheckpointedEvent Example.host tt Scenario.world_cp
  = Ok (match events_of "event_01" (store Example.world1) with
        | d :: _ => Some {| Lib.cp_eventId := "event_01";
                            Lib.cp_creationTime := _creationTime d |}
        | [] => None
        end) Scenario.world_cp.
Proof.
  apply (@checkpoint_round_trip Example.host "event_01" Example.world1 Scenario.world_cp).
  - exact wf_Example_world1.
  - apply (returned_unit (@Lib.updateLastCheckpointedEventId Example.host "event_01"
                            Example.world1)).
    vm_compute. reflexivity.
Defined.

Lemma revisions_agree_witness :
  let w := Example.world1 in
  (∀ e, @LibRange.processEvent Example.host (LibRange.Build_processEvent_args e None None None) w
        = Lib.processEvent (Lib.Build_processEvent_args e None None) w) ∧
  (truthy (eventId ∘ row <$> last (events (store w))) = true →
   ∀ fuel,
     LibRange.updateEvents fuel
       (LibRange.Build_updateEvents_args "sk_test" None None None None None) w
     = Lib.updateEvents fuel (Lib.Build_updateEvents_args "sk_test" None None None) w) ∧
  (∀ id, LibRange.getAuthUser id w = Lib.getAuthUser id w).
Proof.
  apply (@revisions_agree Example.host "sk_test" None None None None None Example.world1).
  discriminate.
Defined.

Lemma createUserOnUpdate_then_getAuthUser_witness :
  @LibRange.getAuthUser Example.host "user_01" Scenario.world_range
  = Ok (Some (payload Example.e_upd2)) Scenario.world_range.
Proof.
  apply (@createUserOnUpdate_then_getAuthUser Example.host
           (Example.range_args Example.e_upd2 (Some true)) "user_01"
           Example.world Scenario.world_range).
  - reflexivity.
  - reflexivity.
  - vm_compute. reflexivity.
  - vm_compute. reflexivity.
  - vm_compute. reflexivity.
  - apply (returned_unit (@LibRange.processEvent Example.host
                            (Example.range_args Example.e_upd2 (Some true)) Example.world)).
    vm_compute. reflexivity.
Defined.

Lemma LibRange_processEvent_idempotent_witness :
  wf (store Scenario.world_range) ∧
  ∃ w2, @LibRange.processEvent Example.host (Example.range_args Example.e_upd2 (Some true))
          Scenario.world_range = Ok tt w2 ∧
        store w2 = store Scenario.world_range ∧
        List.length (events_of "event_03" (store w2)) = 1.
Proof.
  apply (@LibRange_processEvent_idempotent Example.host
           (Example.range_args Example.e_upd2 (Some true)) Example.world Scenario.world_range).
  - apply wf_emptyWorld.
  - apply (returned_unit (@LibRange.processEvent Example.host
                            (Example.range_args Example.e_upd2 (Some true)) Example.world)).
    vm_compute. reflexivity.
Defined.


